(** * bolt-proxy: Bolt framing, HELLO authentication and the routing-table
    monitor, embedded from the Go sources.

    - [Go]          : what the Go runtime gives the program: how a call ends
                      (return, panic, process exit), byte slices with their
                      length and capacity, [error] values.
    - [Bolt]        : package [bolt]: [TypeFromByte], [IdentifyType], [Parse]
                      and the partial PackStream reader.
    - [Backend]     : package [backend]: [routingTableTx],
                      [getNewRoutingTable], the monitor's goroutine and
                      [Authenticate].
    - [BoltSpec], [BackendSpec] : the words of the specification (dispatch
                      table, frames, well-formed streams, unions of hosts)
                      and the concrete inputs the examples run on.
    - [BoltFacts], [BackendFacts] : what is proved. *)

From Stdlib Require Import ZArith NArith List Strings.Byte String Ascii Bool Lia.
From stdpp Require Import gmap strings list fin_maps.

#[local] Set Warnings "-register-all".
#[local] Open Scope string_scope.
#[local] Open Scope nat_scope.
#[local] Open Scope list_scope.

(* ===================================================================== *)
(** ** The Go runtime, as far as the program uses it *)
(* ===================================================================== *)
Module Go.

(** How a call ends. [Returned] is a normal return. [Panicked] is a Go panic
    that unwinds the goroutine (an explicit [panic(...)] or a runtime error
    such as an index out of range). [Exited] is [log.Fatal]: the message is
    logged and the whole process exits with status 1. [OutOfFuel] belongs to
    the embedding only: loops whose trip count is not structural carry a
    fuel counter, and the facts modules show the counter never runs out. *)
Inductive outcome (A : Type) : Type :=
| Returned (a : A)
| Panicked (reason : string)
| Exited (reason : string)
| OutOfFuel.
Arguments Returned {A} a.
Arguments Panicked {A} reason.
Arguments Exited {A} reason.
Arguments OutOfFuel {A}.

Definition bind {A B : Type} (m : outcome A) (k : A -> outcome B) : outcome B :=
  match m with
  | Returned a => k a
  | Panicked r => Panicked r
  | Exited r => Exited r
  | OutOfFuel => OutOfFuel
  end.

#[global] Instance outcome_ret : MRet outcome := @Returned.
#[global] Instance outcome_bind : MBind outcome := fun A B k m => bind m k.

(** [errors.New(msg)] and the opaque errors of the network stack. *)
Inductive error : Type :=
| errors_New (msg : string)
| net_error (msg : string).

(** [err.Error()] *)
Definition error_string (err : error) : string :=
  match err with errors_New msg | net_error msg => msg end.

#[global] Instance byte_eq_dec : EqDecision byte := Byte.byte_eq_dec.

Definition byte_nat (b : byte) : nat := N.to_nat (Byte.to_N b).

(** A [[]byte] value. A non-nil slice is a window on a backing array:
    [elems] are the [len] visible bytes, [spare] the bytes of the backing
    array between [len] and [cap], which a re-slice [s[lo:hi]] may reach. *)
Inductive Slice : Type :=
| NilSlice
| MkSlice (visible beyond : list byte).

Definition elems (s : Slice) : list byte :=
  match s with NilSlice => [] | MkSlice v _ => v end.
Definition spare (s : Slice) : list byte :=
  match s with NilSlice => [] | MkSlice _ b => b end.
Definition backing (s : Slice) : list byte := elems s ++ spare s.
Definition len (s : Slice) : nat := length (elems s).
Definition cap (s : Slice) : nat := length (backing s).
Definition is_nil (s : Slice) : bool :=
  match s with NilSlice => true | MkSlice _ _ => false end.

Definition bounds_error : string := "runtime error: slice bounds out of range".
Definition index_error : string := "runtime error: index out of range".

(** [s[lo:hi]]: needs [lo <= hi <= cap(s)]; a nil slice re-slices to nil. *)
Definition reslice (s : Slice) (lo hi : nat) : outcome Slice :=
  if (lo <=? hi) && (hi <=? cap s) then
    match s with
    | NilSlice => Returned NilSlice
    | MkSlice _ _ =>
        Returned (MkSlice (take (hi - lo) (drop lo (backing s))) (drop hi (backing s)))
    end
  else Panicked bounds_error.

(** [s[lo:]], that is [s[lo:len(s)]]: needs [lo <= len(s)]. *)
Definition reslice_from (s : Slice) (lo : nat) : outcome Slice :=
  if lo <=? len s then
    match s with
    | NilSlice => Returned NilSlice
    | MkSlice v b => Returned (MkSlice (drop lo v) b)
    end
  else Panicked bounds_error.

(** [s[i]]: needs [i < len(s)]. *)
Definition index (s : Slice) (i : nat) : outcome byte :=
  match elems s !! i with
  | Some b => Returned b
  | None => Panicked index_error
  end.

(** [bytes.HasSuffix(s, suffix)] *)
Definition HasSuffix (s suffix : list byte) : bool :=
  (length suffix <=? length s) &&
  bool_decide (drop (length s - length suffix) s = suffix).

(** [binary.BigEndian.Uint16(b)]: [uint16(b[1]) | uint16(b[0])<<8], after the
    bounds check [_ = b[1]]. *)
Definition uint16_of (b0 b1 : byte) : N :=
  N.lor (Byte.to_N b1) (N.shiftl (Byte.to_N b0) 8).

Definition Uint16 (b : Slice) : outcome N :=
  match elems b with
  | b0 :: b1 :: _ => Returned (uint16_of b0 b1)
  | _ => Panicked index_error
  end.

End Go.

(* ===================================================================== *)
(** ** Package bolt: message types and framing *)
(* ===================================================================== *)
Module Bolt.
Import Go.

(** [type Type string] with its fifteen constants. *)
Inductive MsgType : Type :=
| ResetMsg | RunMsg | DiscardMsg | PullMsg | RecordMsg | SuccessMsg
| IgnoreMsg | FailureMsg | HelloMsg | GoodbyeMsg | BeginMsg | CommitMsg
| RollbackMsg | UnknownMsg | NopMsg.

#[global] Instance MsgType_eq_dec : EqDecision MsgType.
Proof. solve_decision. Defined.

(** The string behind each constant. *)
Definition type_string (t : MsgType) : string :=
  match t with
  | ResetMsg => "RESET" | RunMsg => "RUN" | DiscardMsg => "DISCARD"
  | PullMsg => "PULL" | RecordMsg => "RECORD" | SuccessMsg => "SUCCESS"
  | IgnoreMsg => "IGNORE" | FailureMsg => "FAILURE" | HelloMsg => "HELLO"
  | GoodbyeMsg => "GOODBYE" | BeginMsg => "BEGIN" | CommitMsg => "COMMIT"
  | RollbackMsg => "ROLLBACK" | UnknownMsg => "?UNKNOWN?" | NopMsg => "NOP"
  end.

Record Message : Type := mkMessage { T : MsgType; Data : Slice }.

(** [func TypeFromByte(b byte) Type] *)
Definition TypeFromByte (b : byte) : MsgType :=
  match b with
  | x0f => ResetMsg
  | x10 => RunMsg
  | x2f => DiscardMsg
  | x3f => PullMsg
  | x71 => RecordMsg
  | x70 => SuccessMsg
  | x7e => IgnoreMsg
  | x7f => FailureMsg
  | x01 => HelloMsg
  | x02 => GoodbyeMsg
  | x11 => BeginMsg
  | x12 => CommitMsg
  | x13 => RollbackMsg
  | _ => UnknownMsg
  end.

(** [buf[i]] at an index the caller has already checked against [len(buf)]. *)
Definition at_ (buf : Slice) (i : nat) : byte := nth i (elems buf) x00.

(** [func IdentifyType(buf []byte) Type] *)
Definition IdentifyType (buf : Slice) : MsgType :=
  if len buf <? 4 then NopMsg
  else if bool_decide (at_ buf 0 = x00) then TypeFromByte (at_ buf 3)
  else TypeFromByte (at_ buf 2).

Definition bad_message : string := "DEBUG [bad message] %#v".

(** The [for i := 0; i < len(buf); { ... }] loop of [Parse]. Every trip
    either leaves the loop or advances [i] by [len(msg) >= 4], so
    [len(buf) + 1] units of fuel are never used up. The [return] that
    follows the [panic] in the source is dead code and has no counterpart
    here. *)
Fixpoint Parse_loop (fuel : nat) (buf : Slice) (i : nat) (messages : list Message)
  : outcome (list Message * Slice * option error) :=
  match fuel with
  | O => OutOfFuel
  | S fuel' =>
      if i <? len buf then
        hdr ← reslice buf i (i + 2);
        n ← Uint16 hdr;
        let msglen := N.to_nat n in
        if len buf <? msglen + i + 4 then
          chunk ← reslice_from buf i;
          Returned (messages, chunk, None)
        else
          msg ← reslice buf i (i + msglen + 4);
          if negb (HasSuffix (elems msg) [x00; x00]) then Panicked bad_message
          else
            let msgType := IdentifyType msg in
            Parse_loop fuel' buf (i + len msg) (messages ++ [mkMessage msgType msg])
      else Returned (messages, NilSlice, None)
  end.

(** [func Parse(buf []byte) ([]Message, []byte, error)] *)
Definition Parse (buf : Slice) : outcome (list Message * Slice * option error) :=
  Parse_loop (S (len buf)) buf 0 [].

(** *** The partial PackStream reader *)

(** What an [interface{}] holds after decoding: the nil interface (an array
    slot never written), an [int], a [string], a [[]interface{}] or a
    [map[string]interface{}]. A nil map or nil array is read like an empty
    one and is represented by it. *)
Inductive value : Type :=
| VNil
| VInt (n : Z)
| VString (s : string)
| VArray (l : list value)
| VMap (m : gmap string value).

Definition hi_nibble (b : byte) : N := N.shiftr (Byte.to_N b) 4.
Definition lo_nibble (b : byte) : N := N.land (Byte.to_N b) 15.

(** [fmt.Sprintf("%s", b)] of a byte slice: the bytes as a string. *)
Definition bytes_string (b : Slice) : string := string_of_list_byte (elems b).

(** [func ParseTinyInt(b byte) (int, error)] *)
Definition ParseTinyInt (b : byte) : Z * option error :=
  if (127 <? Byte.to_N b)%N then (0%Z, Some (errors_New "expected tiny-int!"))
  else (Z.of_N (Byte.to_N b), None).

(** [func ParseTinyString(buf []byte) (string, int, error)] *)
Definition ParseTinyString (buf : Slice) : outcome (string * nat * option error) :=
  if (len buf =? 0) || negb (hi_nibble (at_ buf 0) =? 8)%N then
    Returned ("", 0, Some (errors_New "expected tiny-string!"))
  else
    let size := N.to_nat (lo_nibble (at_ buf 0)) in
    if size =? 0 then Returned ("", 1, None)
    else
      s ← reslice buf 1 (size + 1);
      Returned (bytes_string s, size + 1, None).

(** [binary.BigEndian.Uint64] of eight bytes. *)
Definition Uint64 (b : list byte) : N :=
  fold_left (fun acc x => N.lor (N.shiftl acc 8) (Byte.to_N x)) b 0%N.

(** [int(u)] for a [uint64] and [a + b] on [int]: 64 bits, two's complement. *)
Definition int64_wrap (z : Z) : Z := ((z + 2 ^ 63) mod 2 ^ 64 - 2 ^ 63)%Z.

(** [func ParseString(buf []byte) (string, int, error)] *)
Definition ParseString (buf : Slice) : outcome (string * nat * option error) :=
  if (len buf <? 1) || negb (hi_nibble (at_ buf 0) =? 13)%N then
    Returned ("", 0, Some (errors_New "expected string!"))
  else
    let readAhead := N.to_nat (N.shiftl 1 (lo_nibble (at_ buf 0))) in
    sizeBytes ← reslice buf 1 (1 + readAhead);
    let sizeBytes := repeat x00 8 ++ elems sizeBytes in
    let pos := 1 + readAhead in
    let size := int64_wrap (Z.of_N (Uint64 (drop (length sizeBytes - 8) sizeBytes))) in
    let high := int64_wrap (Z.of_nat pos + size) in
    if (high <? Z.of_nat pos)%Z then Panicked bounds_error
    else
      s ← reslice buf pos (Z.to_nat high);
      Returned (bytes_string s, Z.to_nat high, None).

Definition unsupported_encoding : string := "found unsupported encoding type: %#v".

(** The [for i := 0; i < size; i++] loop of [ParseTinyArray]; [n] counts the
    trips still to make, [i = size - n]. *)
Fixpoint TinyArray_members (buf : Slice) (n i pos : nat) (array : list value)
  : outcome (list value * nat * option error) :=
  match n with
  | O => Returned (array, pos, None)
  | S n' =>
      b ← index buf pos;
      let memberType := hi_nibble b in
      if (memberType <=? 7)%N then
        match ParseTinyInt b with
        | (_, Some err) => Returned (array, pos, Some err)
        | (val, None) =>
            TinyArray_members buf n' (S i) (pos + 1) (<[i := VInt val]> array)
        end
      else if (memberType =? 8)%N then
        sub ← reslice_from buf pos;
        r ← ParseTinyString sub;
        match r with
        | (_, _, Some err) => Returned (array, pos, Some err)
        | (val, k, None) =>
            TinyArray_members buf n' (S i) (pos + k) (<[i := VString val]> array)
        end
      else if (memberType =? 13)%N then
        sub ← reslice_from buf pos;
        r ← ParseString sub;
        match r with
        | (_, _, Some err) => Returned (array, pos, Some err)
        | (val, k, None) =>
            TinyArray_members buf n' (S i) (pos + k) (<[i := VString val]> array)
        end
      else Returned (array, pos, Some (errors_New unsupported_encoding))
  end.

(** [func ParseTinyArray(buf []byte) ([]interface{}, int, error)] *)
Definition ParseTinyArray (buf : Slice) : outcome (list value * nat * option error) :=
  b ← index buf 0;
  if negb (hi_nibble b =? 9)%N then
    Returned ([], 0, Some (errors_New "expected tiny-array"))
  else
    let size := N.to_nat (lo_nibble b) in
    TinyArray_members buf size 0 1 (repeat VNil size).

(** [panic(err)] *)
Definition panic_err {A : Type} (err : error) : outcome A := Panicked (error_string err).

Section TinyMap.
(** The nested call [ParseTinyMap(buf[pos:])]. *)
Variable ParseTinyMap_rec : Slice -> outcome (gmap string value * nat * option error).

(** The [for i := 0; i < numMembers; i++] loop of [ParseTinyMap]; [n]
    counts the trips still to make. Every [return] that follows a
    [panic(err)] in the source is dead code. *)
Fixpoint TinyMap_members (buf : Slice) (n pos : nat) (result : gmap string value)
  : outcome (gmap string value * nat * option error) :=
  match n with
  | O => Returned (result, pos, None)
  | S n' =>
      key ← reslice_from buf pos;
      r ← ParseTinyString key;
      match r with
      | (_, _, Some err) => panic_err err
      | (name, k, None) =>
          let pos := pos + k in
          b ← index buf pos;
          let tag := hi_nibble b in
          if (tag <=? 7)%N then
            match ParseTinyInt b with
            | (_, Some err) => panic_err err
            | (val, None) =>
                TinyMap_members buf n' (pos + 1) (<[name := VInt val]> result)
            end
          else if (tag =? 8)%N then
            sub ← reslice_from buf pos;
            r ← ParseTinyString sub;
            match r with
            | (_, _, Some err) => panic_err err
            | (val, k, None) =>
                TinyMap_members buf n' (pos + k) (<[name := VString val]> result)
            end
          else if (tag =? 9)%N then
            sub ← reslice_from buf pos;
            r ← ParseTinyArray sub;
            match r with
            | (_, _, Some err) => panic_err err
            | (val, k, None) =>
                TinyMap_members buf n' (pos + k) (<[name := VArray val]> result)
            end
          else if (tag =? 13)%N then
            sub ← reslice_from buf pos;
            r ← ParseString sub;
            match r with
            | (_, _, Some err) => panic_err err
            | (val, k, None) =>
                TinyMap_members buf n' (pos + k) (<[name := VString val]> result)
            end
          else if (tag =? 10)%N then
            sub ← reslice_from buf pos;
            r ← ParseTinyMap_rec sub;
            match r with
            | (_, _, Some err) => panic_err err
            | (val, k, None) =>
                TinyMap_members buf n' (pos + k) (<[name := VMap val]> result)
            end
          else Returned (∅, pos, Some (errors_New unsupported_encoding))
      end
  end.
End TinyMap.

(** [ParseTinyMap] with a bound on the nesting depth of tiny-maps. A nested
    map starts at [pos >= 1], so its slice is shorter than [buf]. *)
Fixpoint ParseTinyMap_fuel (fuel : nat) (buf : Slice)
  : outcome (gmap string value * nat * option error) :=
  match fuel with
  | O => OutOfFuel
  | S fuel' =>
      if is_nil buf then Panicked "cannot parse nil byte array for structs"
      else if len buf <? 1 then
        Returned (∅, 0, Some (errors_New "bytes empty, cannot parse struct"))
      else if negb (hi_nibble (at_ buf 0) =? 10)%N then Panicked "XXX: buf[pos] = %#v"
      else
        let numMembers := N.to_nat (lo_nibble (at_ buf 0)) in
        TinyMap_members (ParseTinyMap_fuel fuel') buf numMembers 1 ∅
  end.

(** [func ParseTinyMap(buf []byte) (map[string]interface{}, int, error)] *)
Definition ParseTinyMap (buf : Slice) : outcome (gmap string value * nat * option error) :=
  ParseTinyMap_fuel (S (len buf)) buf.

End Bolt.

(* ===================================================================== *)
(** ** Package backend: routing table, monitor and authentication *)
(* ===================================================================== *)
Module Backend.
Import Go Bolt.

(** *** The routing table *)

(** [type RoutingTable struct], with the fields that [getNewRoutingTable]
    fills. [Hosts] is a [map[string]bool] that only ever receives [true]: a
    set. [Ttl] is a [time.Duration] and [CreatedAt] a [time.Time], both in
    nanoseconds. *)
Record RoutingTable : Type := mkRoutingTable {
  DefaultDb : string;
  readers : gmap string (list string);
  writers : gmap string (list string);
  CreatedAt : Z;
  Hosts : gset string;
  Ttl : Z
}.

(** Modelled from the spec: [RoutingTable.Expired], whose source file is not
    part of the sources at hand: true when [now - CreatedAt > TTL]. *)
Definition Expired (rt : RoutingTable) (now : Z) : bool :=
  (Ttl rt <? now - CreatedAt rt)%Z.

(** Modelled from the spec: [RoutingTable.WritersFor], whose source file is
    not part of the sources at hand: the ordered writer list that the
    writers mapping holds for the database, and an error when it holds
    none. *)
Definition WritersFor (rt : RoutingTable) (db : string) : list string * option error :=
  match writers rt !! db with
  | Some w => (w, None)
  | None => ([], Some (errors_New "no such database"))
  end.

(** [type table struct]: the raw routing details of one database. *)
Record table : Type := mkTable {
  db : string;
  ttl : Z;
  t_readers : list string;
  t_writers : list string
}.

(** *** The driver, seen from the monitor *)

(** A field of a result row, as [interface{}]: only [string] and [int64]
    are ever asserted. *)
Inductive field : Type :=
| FString (s : string)
| FInt64 (n : Z)
| FOther.

(** A result row: keys with their values; [Get] yields the first match and
    whether there was one. *)
Definition Row : Type := list (string * field).

Fixpoint Get (row : Row) (key : string) : option field :=
  match row with
  | [] => None
  | (k, v) :: row' => if decide (k = key) then Some v else Get row' key
  end.

(** What running a statement and collecting its rows gives. *)
Inductive QueryResult : Type :=
| Rows (rows : list Row)
| QueryError (err : error).

(** The cluster behind [*neo4j.Driver] at one refresh: its answer to
    [SHOW_DATABASES] and to [ROUTING_QUERY] for a list of names. *)
Record Driver : Type := mkDriver {
  show_databases : QueryResult;
  routing_query : list string -> QueryResult
}.

(** The [for i, row := range rows] loop of [queryDbNames]. *)
Fixpoint dbNames_rows (rows : list Row) : outcome (list string * option error) :=
  match rows with
  | [] => Returned ([], None)
  | row :: rows' =>
      match Get row "name" with
      | None => Returned ([], Some (errors_New "couldn't find name field in result"))
      | Some (FString name) =>
          r ← dbNames_rows rows';
          match r with
          | (_, Some err) => Returned ([], Some err)
          | (names, None) => Returned (name :: names, None)
          end
      | Some _ => Panicked "name isn't a string"
      end
  end.

(** [func queryDbNames(driver *neo4j.Driver) ([]string, error)] *)
Definition queryDbNames (driver : Driver) : outcome (list string * option error) :=
  match show_databases driver with
  | QueryError err => Returned ([], Some err)
  | Rows rows => dbNames_rows rows
  end.

(** [time.Duration(ttl) * time.Second] on [int64]. *)
Definition seconds (ttl : Z) : Z := int64_wrap (ttl * 1000000000).

(** The [for _, row := range rows] loop of [routingTableTx]. *)
Fixpoint routingTable_rows (rows : list Row) (tableMap : gmap string table)
  : outcome (gmap string table * option error) :=
  match rows with
  | [] => Returned (tableMap, None)
  | row :: rows' =>
      match Get row "address" with
      | None => Returned (∅, Some (errors_New "missing address field in result"))
      | Some (FString addr) =>
          match Get row "ttl" with
          | None => Returned (∅, Some (errors_New "missing ttl field in result"))
          | Some (FInt64 ttl) =>
              match Get row "name" with
              | None => Returned (∅, Some (errors_New "missing name field in result"))
              | Some (FString name) =>
                  let t := match tableMap !! name with
                           | Some t => t
                           | None => mkTable name (seconds ttl) [] []
                           end in
                  match Get row "role" with
                  | None => Returned (∅, Some (errors_New "missing role field in result"))
                  | Some (FString role) =>
                      if decide (role = "READ") then
                        let t := mkTable (db t) (Backend.ttl t) (t_readers t ++ [addr]) (t_writers t) in
                        routingTable_rows rows' (<[name := t]> tableMap)
                      else if decide (role = "WRITE") then
                        let t := mkTable (db t) (Backend.ttl t) (t_readers t) (t_writers t ++ [addr]) in
                        routingTable_rows rows' (<[name := t]> tableMap)
                      else if decide (role = "ROUTE") then
                        routingTable_rows rows' tableMap
                      else Returned (∅, Some (errors_New "invalid role"))
                  | Some _ => Panicked "role isn't a string"
                  end
              | Some _ => Panicked "name isn't a string!"
              end
          | Some _ => Panicked "ttl isn't an integer!"
          end
      | Some _ => Panicked "addr isn't a string!"
      end
  end.

(** [func routingTableTx(tx neo4j.Transaction, names []string) (interface{}, error)],
    with [tx.Run] and [Collect] answered by [run]. *)
Definition routingTableTx (run : list string -> QueryResult) (names : list string)
  : outcome (gmap string table * option error) :=
  match run names with
  | QueryError err => Returned (∅, Some err)
  | Rows rows => routingTable_rows rows ∅
  end.

(** [func queryRoutingTable(driver *neo4j.Driver, names []string) (map[string]table, error)] *)
Definition queryRoutingTable (driver : Driver) (names : list string)
  : outcome (gmap string table * option error) :=
  r ← routingTableTx (routing_query driver) names;
  match r with
  | (_, Some err) => Returned (∅, Some err)
  | (tableMap, None) => Returned (tableMap, None)
  end.

(** One trip of [for db, t := range tableMap] in [getNewRoutingTable]. *)
Definition add_table (rt : RoutingTable) (entry : string * table) : RoutingTable :=
  let (db, t) := entry in
  let r := t_readers t in
  let w := t_writers t in
  {| DefaultDb := DefaultDb rt;
     readers := <[db := r]> (readers rt);
     writers := <[db := w]> (writers rt);
     CreatedAt := CreatedAt rt;
     Hosts := Hosts rt ∪ list_to_set r ∪ list_to_set w;
     Ttl := ttl t |}.

Section Monitor.
(** The order in which [range] walks a map is not specified by Go: it is
    a parameter, and the facts below hold for every order. *)
Variable range_tables : gmap string table -> list (string * table).

(** [func getNewRoutingTable(driver *neo4j.Driver)], returning a
    [*RoutingTable] and an [error];
    [now] is what [time.Now()] returns. *)
Definition getNewRoutingTable (driver : Driver) (now : Z)
  : outcome (option RoutingTable * option error) :=
  r ← queryDbNames driver;
  match r with
  | (_, Some err) => Returned (None, Some err)
  | (names, None) =>
      r ← queryRoutingTable driver names;
      match r with
      | (_, Some err) => Returned (None, Some err)
      | (tableMap, None) =>
          match names with
          | [] => Panicked index_error
          | name0 :: _ =>
              let rt := {| DefaultDb := name0; readers := ∅; writers := ∅;
                           CreatedAt := now; Hosts := ∅; Ttl := 0 |} in
              Returned (Some (foldl add_table rt (range_tables tableMap)), None)
          end
      end
  end.

(** *** The monitor's goroutine *)

(** What the goroutine started by [NewMonitor] holds: the table [rt] of
    the enclosing function (the [rt] assigned in the ticker case is a new
    variable of that case and never reaches it), the ticker, and the two
    channels of capacity one. *)
Record MonitorState : Type := mkMonitorState {
  rt0 : RoutingTable;
  ticker_period : Z;
  ticker_running : bool;
  C : option RoutingTable;
  halt : option bool
}.

(** What can happen while the goroutine waits in its [select]: one of its
    three cases becomes ready, or another goroutine touches a channel. *)
Inductive Event : Type :=
| Tick (driver : Driver) (now : Z)
| Halt
| Watchdog
| CallStop
| Receive.

(** Where the goroutine is after an event. *)
Inductive Loop : Type :=
| Waiting (st : MonitorState)
| Returns
| Dies (reason : outcome unit).

Definition enabled (st : MonitorState) (ev : Event) : bool :=
  match ev with
  | Tick _ _ => ticker_running st
  | Halt => bool_decide (is_Some (halt st))
  | Watchdog => true
  | CallStop => true
  | Receive => bool_decide (is_Some (C st))
  end.

(** One trip of the [for { select { ... } }] loop, or one step of another
    goroutine. In the ticker case the channel is drained and then
    refilled; this goroutine is its only sender, so the second [select]
    never finds it full. [log.Fatal(err)] exits with the error's text.
    [Monitor.Stop] sends on [halt] unless it is full. *)
Definition step (st : MonitorState) (ev : Event) : Loop :=
  match ev with
  | Tick driver now =>
      match getNewRoutingTable driver now with
      | Returned (_, Some err) => Dies (Exited (error_string err))
      | Returned (None, None) => Dies (Panicked "nil pointer dereference")
      | Returned (Some rt, None) =>
          if (Ttl rt <=? 0)%Z then Dies (Panicked "non-positive interval for Ticker.Reset")
          else Waiting {| rt0 := rt0 st; ticker_period := Ttl rt; ticker_running := true;
                          C := Some rt; halt := halt st |}
      | Panicked r => Dies (Panicked r)
      | Exited r => Dies (Exited r)
      | OutOfFuel => Dies OutOfFuel
      end
  | Halt =>
      Waiting {| rt0 := rt0 st; ticker_period := ticker_period st; ticker_running := false;
                 C := C st; halt := None |}
  | Watchdog => Dies (Exited "monitor timeout reached of 5 x %v")
  | CallStop =>
      Waiting {| rt0 := rt0 st; ticker_period := ticker_period st;
                 ticker_running := ticker_running st; C := C st;
                 halt := match halt st with Some b => Some b | None => Some true end |}
  | Receive =>
      Waiting {| rt0 := rt0 st; ticker_period := ticker_period st;
                 ticker_running := ticker_running st; C := None; halt := halt st |}
  end.

(** The goroutine along a sequence of events; [None] when an event is not
    enabled where it occurs. *)
Fixpoint run (l : Loop) (evs : list Event) : option Loop :=
  match evs with
  | [] => Some l
  | ev :: evs' =>
      match l with
      | Waiting st => if enabled st ev then run (step st ev) evs' else None
      | _ => None
      end
  end.

(** The goroutine as [NewMonitor] starts it, once the first table [rt] is
    in the channel: [time.NewTicker(rt.Ttl)] then the loop. *)
Definition monitor_start (rt : RoutingTable) : Loop :=
  if (Ttl rt <=? 0)%Z then Dies (Panicked "non-positive interval for NewTicker")
  else Waiting {| rt0 := rt; ticker_period := Ttl rt; ticker_running := true;
                  C := Some rt; halt := None |}.
End Monitor.

(** *** Authentication *)

(** [type Backend struct]: the table last taken from the monitor (a pointer,
    nil until set) and the TLS flag. *)
Record Backend : Type := mkBackend {
  routingTable : option RoutingTable;
  tls : bool
}.

(** [func (b *Backend) RoutingTable() *RoutingTable]. [now] is the clock at
    the call and [arriving] what [b.monitor.C] delivers within the sixty
    seconds of the [select], if anything. The table is returned together
    with the backend as the call leaves it. *)
Definition Backend_RoutingTable (b : Backend) (now : Z) (arriving : option RoutingTable)
  : outcome (Backend * RoutingTable) :=
  match routingTable b with
  | None => Panicked "attempting to use uninitialized BackendClient"
  | Some rt =>
      if Expired rt now then
        match arriving with
        | Some rt' => Returned (mkBackend (Some rt') (tls b), rt')
        | None => Exited "timeout waiting for new routing table!"
        end
      else Returned (b, rt)
  end.

(** A computation that may dial hosts: it is handed the hosts dialled so
    far and leaves that log extended by its own calls, next to how it
    ends. A panic or an exit keeps the log as it stood. *)
Definition Net (A : Type) : Type := list string -> list string * outcome A.

Definition net_ret {A : Type} (a : A) : Net A := fun log => (log, Returned a).

Definition net_bind {A B : Type} (m : Net A) (k : A -> Net B) : Net B :=
  fun log =>
    match m log with
    | (log', Returned a) => k a log'
    | (log', Panicked r) => (log', Panicked r)
    | (log', Exited r) => (log', Exited r)
    | (log', OutOfFuel) => (log', OutOfFuel)
    end.

#[global] Instance Net_ret : MRet Net := @net_ret.
#[global] Instance Net_bind : MBind Net := fun A B k m => net_bind m k.

(** A step that does not touch the network. *)
Definition lift {A : Type} (o : outcome A) : Net A := fun log => (log, o).

Section Authenticate.
(** [net.Conn], and [authClient], which dials a host, replays the HELLO
    bytes and yields the open connection or an error. *)
Variable NetConn : Type.
Variable authClient : Slice -> string -> string -> bool -> NetConn + error.
(** The order in which [for host := range rt.Hosts] walks the set. *)
Variable range_hosts : gset string -> list string.

(** One call of [authClient], entered in the log. *)
Definition dial (hello : Slice) (network host : string) (tls : bool) : Net (NetConn + error) :=
  fun log => (log ++ [host], Returned (authClient hello network host tls)).

(** [bolt.BoltConn], of which [Authenticate] only builds direct ones. *)
Inductive BoltConn : Type :=
| DirectConn (conn : NetConn).

Definition NewDirectConn (c : NetConn) : BoltConn := DirectConn c.

(** The goroutines of the loop do not get a [host] of their own: the
    closure reads the variable of the [for], which before Go 1.22 is one
    variable for all trips, while the loop goes on assigning to it. For the
    goroutines in the order the loop starts them, [reads] tells how many
    trips the loop has advanced when the goroutine reads [host] for
    [authClient], and how many more when it reads [host] again for the pair
    it sends. Where the list ends the goroutine reads at once; that, [(0, 0)],
    is also all that Go 1.22 allows, with its variable per trip. *)
Variable reads : list (nat * nat).

(** The order in which the channel [c] hands out what the goroutines sent. *)
Variable arrival : list (BoltConn * string) -> list (BoltConn * string).

(** What [host] holds once the loop has advanced [d] trips beyond the trip
    of [host], [rest] being the trips to come; after the last trip the
    variable keeps its value. *)
Definition seen (host : string) (rest : list string) (d : nat) : string :=
  nth d (host :: rest) (List.last rest host).

(** The loop over [rt.Hosts], [hosts] being its trips in order, and what its
    goroutines put on the channel [c]: a trip whose host is the default
    writer only assigns [host]; any other starts a goroutine, which sends a
    pair if its [authClient] succeeds and nothing if not. The goroutines run
    in parallel; the log keeps their calls in the order of the loop. *)
Fixpoint fan_out (hello : Message) (tls : bool) (defaultWriter : string)
    (hosts : list string) (rs : list (nat * nat))
  : Net (list (BoltConn * string)) :=
  match hosts with
  | [] => mret []
  | host :: hosts' =>
      if decide (host = defaultWriter) then fan_out hello tls defaultWriter hosts' rs
      else
        let (d, d') := hd (0, 0) rs in
        r ← dial (Data hello) "tcp" (seen host hosts' d) tls;
        pairs ← fan_out hello tls defaultWriter hosts' (tl rs);
        match r with
        | inl conn => mret ((NewDirectConn conn, seen host hosts' (d + d')) :: pairs)
        | inr _ => mret pairs
        end
  end.

(** [for p := range c { conns[p.host] = p.conn }] *)
Definition collect (conns : gmap string BoltConn) (pairs : list (BoltConn * string))
  : gmap string BoltConn :=
  foldl (fun m p => <[p.2 := p.1]> m) conns pairs.

(** [func (b *Backend) Authenticate(hello *bolt.Message) (map[string]bolt.BoltConn, error)] *)
Definition Authenticate (b : Backend) (now : Z) (arriving : option RoutingTable)
    (hello : Message)
  : Net (gmap string BoltConn * option error) :=
  if negb (bool_decide (T hello = HelloMsg)) then
    lift (Panicked "authenticate requires a Hello message")
  else
    r ← lift (payload ← reslice_from (Data hello) 4; ParseTinyMap payload);
    match r with
    | (_, _, Some err) => lift (panic_err err)
    | (msg, _, None) =>
        match msg !! "principal" with
        | Some (VString principal) =>
            r ← lift (Backend_RoutingTable b now arriving);
            let rt := r.2 in
            let (writers, _) := WritersFor rt (DefaultDb rt) in
            match writers with
            | [] => lift (Panicked index_error)
            | defaultWriter :: _ =>
                c ← dial (Data hello) "tcp" defaultWriter (tls b);
                match c with
                | inr err => mret (∅, Some err)
                | inl conn =>
                    let conns := {[ defaultWriter := NewDirectConn conn ]} in
                    pairs ← fan_out hello (tls b) defaultWriter (range_hosts (Hosts rt)) reads;
                    mret (collect conns (arrival pairs), None)
                end
            end
        | _ => lift (Panicked "principal in Hello message was not a string")
        end
    end.
End Authenticate.

End Backend.

(* ===================================================================== *)
(** ** The specification's vocabulary *)
(* ===================================================================== *)
Module BoltSpec.
Import Go Bolt.

(** The dispatch table of the specification: dispatch byte, message type. *)
Definition dispatch_table : list (N * MsgType) :=
  [(0x01, HelloMsg); (0x02, GoodbyeMsg); (0x0F, ResetMsg); (0x10, RunMsg);
   (0x11, BeginMsg); (0x12, CommitMsg); (0x13, RollbackMsg); (0x2F, DiscardMsg);
   (0x3F, PullMsg); (0x70, SuccessMsg); (0x71, RecordMsg); (0x7E, IgnoreMsg);
   (0x7F, FailureMsg)]%N.

Fixpoint table_lookup (tbl : list (N * MsgType)) (b : N) : MsgType :=
  match tbl with
  | [] => UnknownMsg
  | (k, t) :: tbl' => if (k =? b)%N then t else table_lookup tbl' b
  end.

(** Message identification as the specification words it: fewer than four
    bytes is NOP; otherwise byte 3 when byte 0 is zero, byte 2 if not, looked
    up in the table. *)
Definition classify (bytes : list byte) : MsgType :=
  match bytes with
  | b0 :: _ :: b2 :: b3 :: _ =>
      table_lookup dispatch_table (Byte.to_N (if (Byte.to_N b0 =? 0)%N then b3 else b2))
  | _ => NopMsg
  end.

(** The length a frame declares in its first two bytes. *)
Definition declared (f : list byte) : option nat :=
  match f with
  | b0 :: b1 :: _ => Some (N.to_nat (uint16_of b0 b1))
  | _ => None
  end.

(** A complete frame: declared length plus four bytes, ending in [00 00]. *)
Definition complete_frame (f : list byte) : bool :=
  match declared f with
  | Some n => (length f =? n + 4) && HasSuffix f [x00; x00]
  | None => false
  end.

(** A truncated frame: the length is there, the declared bytes are not. *)
Definition truncated_frame (f : list byte) : bool :=
  match declared f with
  | Some n => length f <? n + 4
  | None => false
  end.

(** A frame of the declared length that does not end in [00 00]. *)
Definition unterminated_frame (f : list byte) : bool :=
  match declared f with
  | Some n => (length f =? n + 4) && negb (HasSuffix f [x00; x00])
  | None => false
  end.

(** A well-formed stream: complete frames, then nothing or one truncated
    frame. *)
Definition well_formed (bytes : list byte) : Prop :=
  exists frames rest,
    bytes = concat frames ++ rest /\
    Forall (fun f => complete_frame f = true) frames /\
    (rest = [] \/ truncated_frame rest = true).

(** The messages [Parse] makes of a run of frames that is followed, in the
    backing array, by the bytes [after]. *)
Fixpoint frames_messages (frames : list (list byte)) (after : list byte) : list Message :=
  match frames with
  | [] => []
  | f :: fs =>
      let msg := MkSlice f (concat fs ++ after) in
      mkMessage (IdentifyType msg) msg :: frames_messages fs after
  end.

(** The RECORD frame of the package's test, a frame cut short after its
    first payload byte, and a PULL frame that ends in [ff ff]. *)
Definition record_frame : list byte := [x00; x04; xb1; x71; x91; x01; x00; x00].
Definition cut_frame : list byte := [x00; x09; xb1].
Definition unterminated : list byte := [x00; x01; x3f; xff; xff].

End BoltSpec.

Module BackendSpec.
Import Go Bolt Backend.

(** [union(values(m))]: every host of every list the mapping holds. *)
Definition values_union (m : gmap string (list string)) : gset string :=
  ⋃ (list_to_set <$> (map_to_list m).*2).

(** A row that puts its database into the table map: role READ or WRITE. *)
Definition serves (db : string) (row : Row) : Prop :=
  Get row "name" = Some (FString db) /\
  (Get row "role" = Some (FString "READ") \/ Get row "role" = Some (FString "WRITE")).

(** One row of the routing query. *)
Definition routing_row (name role address : string) : Row :=
  [("name", FString name); ("ttl", FInt64 300); ("role", FString role);
   ("address", FString address)].

(** A cluster of three cores that serves two databases, [neo4j] being the
    default one, and the table a refresh at time 0 builds from it. *)
Definition cluster : Driver :=
  {| show_databases := Rows [[("name", FString "neo4j"); ("default", FOther)];
                             [("name", FString "system"); ("default", FOther)]];
     routing_query := fun _ =>
       Rows [routing_row "neo4j" "WRITE" "core1:7687";
             routing_row "neo4j" "READ" "core2:7687";
             routing_row "neo4j" "READ" "core3:7687";
             routing_row "neo4j" "ROUTE" "core1:7687";
             routing_row "system" "WRITE" "core2:7687";
             routing_row "system" "READ" "core1:7687"] |}.

Definition cluster_table : RoutingTable :=
  {| DefaultDb := "neo4j";
     readers := {[ "neo4j" := ["core2:7687"; "core3:7687"]; "system" := ["core1:7687"] ]};
     writers := {[ "neo4j" := ["core1:7687"]; "system" := ["core2:7687"] ]};
     CreatedAt := 0;
     Hosts := {[ "core1:7687"; "core2:7687"; "core3:7687" ]};
     Ttl := 300000000000 |}.

(** A cluster that answers the routing query for the default database with
    routers only. *)
Definition routers_only : Driver :=
  {| show_databases := Rows [[("name", FString "neo4j")]];
     routing_query := fun _ => Rows [routing_row "neo4j" "ROUTE" "core1:7687"] |}.

(** A HELLO message with the payload [{scheme: "basic", principal:
    "neo4j"}], and one whose payload has no principal. *)
Definition hello_bytes : list byte :=
  [x00; x20; xb1; x01; xa2;
   x86; x73; x63; x68; x65; x6d; x65;  x85; x62; x61; x73; x69; x63;
   x89; x70; x72; x69; x6e; x63; x69; x70; x61; x6c;  x85; x6e; x65; x6f; x34; x6a;
   x00; x00].
Definition hello : Message := mkMessage HelloMsg (MkSlice hello_bytes []).


(** A backend holding the table of [cluster], and a network in which
    [core1] refuses the HELLO (or nobody does). *)
Definition cluster_backend : Backend := mkBackend (Some cluster_table) false.

Definition refusing (bad : list string) (hello : Slice) (network host : string) (tls : bool)
  : unit + error :=
  if bool_decide (host ∈ bad) then inr (net_error "authentication failed") else inl tt.

(** A walk of the hosts that ends with [core3], and goroutines that both
    read [host] only when the loop has ended: each of them dials [core3].
    When [core3] refuses, [Authenticate] is left with the connection to the
    default writer alone. *)
Definition walk_back (hosts : gset string) : list string := rev (elements hosts).

Definition after_loop : list (nat * nat) := [(2, 0); (1, 0)].

Definition probe_conns : gmap string (BoltConn unit) :=
  {[ "core1:7687" := DirectConn unit tt ]}.

End BackendSpec.

(* ===================================================================== *)
(** ** Facts about package bolt *)
(* ===================================================================== *)
Module BoltFacts.
Import Go Bolt BoltSpec.

Create HintDb fuel.

Lemma TypeFromByte_table (b : byte) :
  TypeFromByte b = table_lookup dispatch_table (Byte.to_N b).
Proof. destruct b; reflexivity. Qed.

(** C7. On every slice [IdentifyType] is the classification of the
    specification: NOP under four bytes; otherwise byte 3 when byte 0 is
    [0x00] and byte 2 if not, looked up in the dispatch table, with UNKNOWN
    for a byte the table does not list. *)
Theorem IdentifyType_classify (buf : Slice) :
  IdentifyType buf = classify (elems buf).
Proof.
  unfold IdentifyType, classify, len, at_.
  destruct (elems buf) as [|b0 [|b1 [|b2 [|b3 l]]]]; try reflexivity.
  simpl. rewrite !TypeFromByte_table.
  destruct b0; reflexivity.
Qed.

(** *** Frames *)

Lemma complete_frame_inv (f : list byte) :
  complete_frame f = true ->
  exists b0 b1 f',
    f = b0 :: b1 :: f' /\
    length f = N.to_nat (uint16_of b0 b1) + 4 /\
    HasSuffix f [x00; x00] = true.
Proof.
  unfold complete_frame, declared.
  destruct f as [|b0 [|b1 f']]; try discriminate.
  intros [H1 H2]%andb_prop. apply Nat.eqb_eq in H1.
  exists b0, b1, f'. auto.
Qed.

Lemma complete_frame_length (f : list byte) :
  complete_frame f = true -> 4 <= length f.
Proof. intros (b0 & b1 & f' & _ & H & _)%complete_frame_inv. lia. Qed.

Lemma frames_length (frames : list (list byte)) :
  Forall (fun f => complete_frame f = true) frames ->
  length frames <= length (concat frames).
Proof.
  induction 1 as [|f fs Hf _ IH]; simpl; [lia|].
  rewrite length_app. apply complete_frame_length in Hf. lia.
Qed.

Lemma frames_messages_data (frames : list (list byte)) (after : list byte) :
  map (fun m => elems (Data m)) (frames_messages frames after) = frames.
Proof. induction frames as [|f fs IH]; simpl; [reflexivity | by rewrite IH]. Qed.

Lemma frames_messages_type (frames : list (list byte)) (after : list byte) :
  Forall (fun m => T m = IdentifyType (Data m)) (frames_messages frames after).
Proof. induction frames as [|f fs IH]; simpl; constructor; auto. Qed.

(** Re-slicing a window whose position in the backing array is known. *)
Lemma reslice_backing_window (v sp pre mid suf : list byte) :
  v ++ sp = pre ++ mid ++ suf ->
  reslice (MkSlice v sp) (length pre) (length pre + length mid) = Returned (MkSlice mid suf).
Proof.
  intros E. unfold reslice, cap, backing. cbn [elems spare]. rewrite E.
  rewrite !length_app.
  replace (length pre <=? length pre + length mid) with true
    by (symmetry; apply Nat.leb_le; lia).
  replace (length pre + length mid <=? length pre + (length mid + length suf))
    with true by (symmetry; apply Nat.leb_le; lia).
  cbn [andb]. f_equal. f_equal.
  - replace (length pre + length mid - length pre) with (length mid) by lia.
    rewrite drop_app_length. by rewrite take_app_length.
  - rewrite (app_assoc pre mid). rewrite <- length_app. by rewrite drop_app_length.
Qed.

Lemma reslice_window (pre mid suf sp : list byte) :
  reslice (MkSlice (pre ++ mid ++ suf) sp) (length pre) (length pre + length mid)
  = Returned (MkSlice mid (suf ++ sp)).
Proof. apply reslice_backing_window. by rewrite <- !app_assoc. Qed.

Lemma reslice_beyond (s : Slice) (lo hi : nat) :
  cap s < hi -> reslice s lo hi = Panicked bounds_error.
Proof.
  intros H. unfold reslice.
  replace (hi <=? cap s) with false by (symmetry; apply Nat.leb_gt; lia).
  by rewrite andb_false_r.
Qed.

Lemma reslice_header (pre : list byte) (b0 b1 : byte) (suf sp : list byte) :
  reslice (MkSlice (pre ++ b0 :: b1 :: suf) sp) (length pre) (length pre + 2)
  = Returned (MkSlice [b0; b1] (suf ++ sp)).
Proof. apply (reslice_window pre [b0; b1] suf sp). Qed.

(** One trip of the loop over a complete frame. *)
Lemma Parse_loop_frame (fuel : nat) (pre f suf sp : list byte) (msgs : list Message) :
  complete_frame f = true ->
  Parse_loop (S fuel) (MkSlice (pre ++ f ++ suf) sp) (length pre) msgs
  = Parse_loop fuel (MkSlice (pre ++ f ++ suf) sp) (length pre + length f)
      (msgs ++ [mkMessage (IdentifyType (MkSlice f (suf ++ sp))) (MkSlice f (suf ++ sp))]).
Proof.
  intros Hf. pose proof (complete_frame_inv f Hf) as (b0 & b1 & f' & Ef & Hlen & Hsuf).
  assert (Hhdr : reslice (MkSlice (pre ++ f ++ suf) sp) (length pre) (length pre + 2)
                 = Returned (MkSlice [b0; b1] ((f' ++ suf) ++ sp))).
  { rewrite Ef. apply reslice_header. }
  assert (Hlt : (length pre <? len (MkSlice (pre ++ f ++ suf) sp)) = true).
  { apply Nat.ltb_lt. unfold len. cbn [elems]. rewrite !length_app. lia. }
  assert (Hfit : (len (MkSlice (pre ++ f ++ suf) sp)
                  <? N.to_nat (uint16_of b0 b1) + length pre + 4) = false).
  { apply Nat.ltb_ge. unfold len. cbn [elems]. rewrite !length_app. lia. }
  cbn [Parse_loop]. rewrite Hlt, Hhdr.
  cbn [mbind outcome_bind bind Uint16 elems]. rewrite Hfit.
  replace (length pre + N.to_nat (uint16_of b0 b1) + 4) with (length pre + length f) by lia.
  rewrite reslice_window.
  cbn [mbind outcome_bind bind elems]. rewrite Hsuf. cbn [negb].
  reflexivity.
Qed.

(** The loop over a run of complete frames. *)
Lemma Parse_loop_frames (frames : list (list byte)) :
  forall (fuel : nat) (pre suf sp : list byte) (msgs : list Message),
  Forall (fun f => complete_frame f = true) frames ->
  Parse_loop (length frames + fuel) (MkSlice (pre ++ concat frames ++ suf) sp) (length pre) msgs
  = Parse_loop fuel (MkSlice (pre ++ concat frames ++ suf) sp)
      (length pre + length (concat frames)) (msgs ++ frames_messages frames (suf ++ sp)).
Proof.
  induction frames as [|f fs IH]; intros fuel pre suf sp msgs Hall.
  - simpl. by rewrite Nat.add_0_r, app_nil_r.
  - inversion Hall as [|? ? Hf Hfs]; subst.
    cbn [length concat Nat.add frames_messages].
    rewrite <- (app_assoc f). rewrite Parse_loop_frame by done.
    replace (pre ++ f ++ concat fs ++ suf) with ((pre ++ f) ++ concat fs ++ suf)
      by (by rewrite <- app_assoc).
    rewrite <- length_app. rewrite IH by done.
    rewrite !length_app. rewrite <- !app_assoc. cbn [app].
    f_equal. lia.
Qed.


(** How the loop ends: at the end of the buffer, ... *)
Lemma Parse_loop_end (fuel : nat) (pre sp : list byte) (msgs : list Message) :
  Parse_loop (S fuel) (MkSlice pre sp) (length pre) msgs = Returned (msgs, NilSlice, None).
Proof.
  cbn [Parse_loop]. unfold len. cbn [elems]. by rewrite Nat.ltb_irrefl.
Qed.

(** ... on a truncated frame, ... *)
Lemma Parse_loop_truncated (fuel : nat) (pre rest sp : list byte) (msgs : list Message) :
  truncated_frame rest = true ->
  Parse_loop (S fuel) (MkSlice (pre ++ rest) sp) (length pre) msgs
  = Returned (msgs, MkSlice rest sp, None).
Proof.
  unfold truncated_frame, declared.
  destruct rest as [|b0 [|b1 rest']] eqn:E; try discriminate.
  intros Hlt%Nat.ltb_lt. rewrite <- E in *.
  assert (H1 : (length pre <? len (MkSlice (pre ++ rest) sp)) = true).
  { apply Nat.ltb_lt. unfold len. cbn [elems]. rewrite length_app, E. simpl. lia. }
  assert (H2 : (len (MkSlice (pre ++ rest) sp)
                <? N.to_nat (uint16_of b0 b1) + length pre + 4) = true).
  { apply Nat.ltb_lt. unfold len. cbn [elems]. rewrite length_app. lia. }
  assert (H3 : reslice (MkSlice (pre ++ rest) sp) (length pre) (length pre + 2)
               = Returned (MkSlice [b0; b1] (rest' ++ sp))).
  { rewrite E. apply reslice_header. }
  cbn [Parse_loop]. rewrite H1, H3.
  cbn [mbind outcome_bind bind Uint16 elems]. rewrite H2.
  unfold reslice_from, len. cbn [elems].
  replace (length pre <=? length (pre ++ rest)) with true
    by (symmetry; apply Nat.leb_le; rewrite length_app; lia).
  cbn [mbind outcome_bind bind]. by rewrite drop_app_length.
Qed.

(** ... or on a frame without its terminator. *)
Lemma Parse_loop_unterminated (fuel : nat) (pre f suf sp : list byte) (msgs : list Message) :
  unterminated_frame f = true ->
  Parse_loop (S fuel) (MkSlice (pre ++ f ++ suf) sp) (length pre) msgs = Panicked bad_message.
Proof.
  unfold unterminated_frame, declared.
  destruct f as [|b0 [|b1 f']] eqn:E; try discriminate.
  rewrite <- E. intros [Hlen%Nat.eqb_eq Hsuf%negb_true_iff]%andb_prop.
  assert (H1 : (length pre <? len (MkSlice (pre ++ f ++ suf) sp)) = true).
  { apply Nat.ltb_lt. unfold len. cbn [elems]. rewrite !length_app. lia. }
  assert (H2 : (len (MkSlice (pre ++ f ++ suf) sp)
                <? N.to_nat (uint16_of b0 b1) + length pre + 4) = false).
  { apply Nat.ltb_ge. unfold len. cbn [elems]. rewrite !length_app. lia. }
  assert (H3 : reslice (MkSlice (pre ++ f ++ suf) sp) (length pre) (length pre + 2)
               = Returned (MkSlice [b0; b1] ((f' ++ suf) ++ sp))).
  { rewrite E. apply reslice_header. }
  cbn [Parse_loop]. rewrite H1, H3.
  cbn [mbind outcome_bind bind Uint16 elems]. rewrite H2.
  replace (length pre + N.to_nat (uint16_of b0 b1) + 4) with (length pre + length f) by lia.
  rewrite reslice_window.
  cbn [mbind outcome_bind bind elems]. by rewrite Hsuf.
Qed.

(** [Parse] on a buffer that starts with complete frames: the loop reaches
    the byte after them with fuel to spare. *)
Lemma Parse_frames (frames : list (list byte)) (rest sp : list byte) :
  Forall (fun f => complete_frame f = true) frames ->
  exists fuel,
    Parse (MkSlice (concat frames ++ rest) sp)
    = Parse_loop (S fuel) (MkSlice (concat frames ++ rest) sp)
        (length (concat frames)) (frames_messages frames (rest ++ sp)).
Proof.
  intros Hall. pose proof (frames_length frames Hall) as Hn.
  exists (length (concat frames ++ rest) - length frames).
  unfold Parse, len. cbn [elems].
  replace (S (length (concat frames ++ rest)))
    with (length frames + S (length (concat frames ++ rest) - length frames))
    by (rewrite length_app; lia).
  apply (Parse_loop_frames frames _ [] rest sp [] Hall).
Qed.

(** *** Fuel *)

Lemma bind_fuel {A B : Type} (m : outcome A) (k : A -> outcome B) :
  m <> OutOfFuel -> (forall a, m = Returned a -> k a <> OutOfFuel) ->
  (a ← m; k a) <> OutOfFuel.
Proof.
  unfold mbind, outcome_bind, bind. destruct m; intros H1 H2; try done. by apply H2.
Qed.

(** One step towards [o <> OutOfFuel], following the shape of [o]. *)
Ltac fuel_step :=
  match goal with
  | |- (_ ← _; _) <> OutOfFuel => apply bind_fuel; [auto with fuel | intros ? ?]
  | |- (if ?c then _ else _) <> OutOfFuel => destruct c eqn:?
  | |- (match ?x with _ => _ end) <> OutOfFuel => destruct x eqn:?
  | |- panic_err _ <> OutOfFuel => discriminate
  | |- Returned _ <> OutOfFuel => discriminate
  | |- Panicked _ <> OutOfFuel => discriminate
  end.

Lemma reslice_fuel (s : Slice) (lo hi : nat) : reslice s lo hi <> OutOfFuel.
Proof. unfold reslice. destruct (_ && _); [destruct s|]; done. Qed.

Lemma reslice_from_fuel (s : Slice) (lo : nat) : reslice_from s lo <> OutOfFuel.
Proof. unfold reslice_from. destruct (_ <=? _); [destruct s|]; done. Qed.

Lemma index_fuel (s : Slice) (i : nat) : index s i <> OutOfFuel.
Proof. unfold index. by destruct (_ !! _). Qed.

Lemma Uint16_fuel (s : Slice) : Uint16 s <> OutOfFuel.
Proof. unfold Uint16. by destruct (elems s) as [|? [|? ?]]. Qed.

Lemma reslice_len (s m : Slice) (lo hi : nat) :
  reslice s lo hi = Returned m -> len m = hi - lo.
Proof.
  unfold reslice. destruct (_ && _) eqn:E; [|done].
  apply andb_prop in E as [H1%Nat.leb_le H2%Nat.leb_le].
  destruct s; intros [= <-]; unfold len; cbn [elems].
  - unfold cap, backing in H2. simpl in H2. simpl. lia.
  - unfold cap, backing in *. cbn [elems spare] in *.
    rewrite length_take, length_drop. lia.
Qed.

Lemma reslice_from_len (s m : Slice) (lo : nat) :
  reslice_from s lo = Returned m -> len m = len s - lo.
Proof.
  unfold reslice_from. destruct (_ <=? _) eqn:E; [|done].
  destruct s; intros [= <-]; unfold len; cbn [elems]; [done|].
  by rewrite length_drop.
Qed.

Lemma index_lt (s : Slice) (i : nat) (b : byte) : index s i = Returned b -> i < len s.
Proof.
  unfold index. destruct (_ !! _) eqn:E; [|done]. intros _.
  by apply lookup_lt_Some in E.
Qed.

#[local] Hint Resolve reslice_fuel reslice_from_fuel index_fuel Uint16_fuel : fuel.

Lemma Parse_loop_fuel (fuel : nat) :
  forall (buf : Slice) (i : nat) (msgs : list Message),
  i <= len buf -> len buf < fuel + i -> Parse_loop fuel buf i msgs <> OutOfFuel.
Proof.
  induction fuel as [|fuel IH]; intros buf i msgs Hle Hlt; [lia|].
  cbn [Parse_loop]. destruct (i <? len buf) eqn:Ei; [|done].
  apply bind_fuel; [apply reslice_fuel|]. intros hdr _.
  apply bind_fuel; [apply Uint16_fuel|]. intros n _.
  destruct (len buf <? _) eqn:En.
  - apply bind_fuel; [apply reslice_from_fuel | done].
  - apply bind_fuel; [apply reslice_fuel|]. intros msg Hmsg.
    destruct (negb _); [done|].
    apply reslice_len in Hmsg. apply Nat.ltb_ge in En.
    apply IH; lia.
Qed.

(** X1. [Parse] always ends by itself: it returns or panics. *)
Lemma Parse_total (buf : Slice) : Parse buf <> OutOfFuel.
Proof. apply Parse_loop_fuel; lia. Qed.

(** The loop never returns an error. *)
Lemma Parse_loop_no_error (fuel : nat) :
  forall (buf : Slice) (i : nat) (msgs ms : list Message) (tail : Slice) (err : option error),
  Parse_loop fuel buf i msgs = Returned (ms, tail, err) -> err = None.
Proof.
  induction fuel as [|fuel IH]; intros buf i msgs ms tail err; [done|].
  cbn [Parse_loop]. destruct (i <? len buf); [|by intros [= _ _ <-]].
  unfold mbind, outcome_bind, bind.
  destruct (reslice buf i (i + 2)); try done.
  destruct (Uint16 a); try done.
  destruct (_ <? _).
  - destruct (reslice_from buf i); try done. by intros [= _ _ <-].
  - destruct (reslice buf i _); try done.
    destruct (negb _); [done|]. apply IH.
Qed.

(** X4. [Parse] never returns an error: the only [return] with one follows
    a [panic]. *)
Lemma Parse_no_error (buf : Slice) (ms : list Message) (tail : Slice) (err : error) :
  Parse buf <> Returned (ms, tail, Some err).
Proof. intros H. by apply Parse_loop_no_error in H. Qed.

(** *** The PackStream reader ends by itself *)

Lemma ParseTinyString_fuel (buf : Slice) : ParseTinyString buf <> OutOfFuel.
Proof. unfold ParseTinyString. repeat fuel_step. Qed.

Lemma ParseString_fuel (buf : Slice) : ParseString buf <> OutOfFuel.
Proof. unfold ParseString. repeat fuel_step. Qed.

#[local] Hint Resolve ParseTinyString_fuel ParseString_fuel : fuel.

Lemma TinyArray_members_fuel (buf : Slice) (n : nat) :
  forall (i pos : nat) (array : list value),
  TinyArray_members buf n i pos array <> OutOfFuel.
Proof.
  induction n as [|n IH]; intros i pos array; cbn [TinyArray_members]; [done|].
  repeat first [apply IH | fuel_step].
Qed.

Lemma ParseTinyArray_fuel (buf : Slice) : ParseTinyArray buf <> OutOfFuel.
Proof.
  unfold ParseTinyArray. repeat first [apply TinyArray_members_fuel | fuel_step].
Qed.

#[local] Hint Resolve ParseTinyArray_fuel : fuel.

(** The member loop ends by itself as soon as the nested calls, all on
    slices shorter than [buf], do. *)
Lemma TinyMap_members_fuel (rec : Slice -> outcome (gmap string value * nat * option error))
    (buf : Slice) (n : nat) :
  (forall sub, len sub < len buf -> rec sub <> OutOfFuel) ->
  forall (pos : nat) (result : gmap string value),
  1 <= pos -> TinyMap_members rec buf n pos result <> OutOfFuel.
Proof.
  intros Hrec. induction n as [|n IH]; intros pos result Hpos;
    cbn [TinyMap_members]; [done|].
  repeat first
    [ apply IH; lia
    | match goal with
      | |- (_ ← rec ?sub; _) <> OutOfFuel =>
          apply bind_fuel; [apply Hrec | intros ? ?]
      end
    | fuel_step ].
  match goal with
  | H : reslice_from buf _ = Returned _, I : index buf _ = Returned _ |- _ =>
      apply reslice_from_len in H; apply index_lt in I; lia
  end.
Qed.

Lemma ParseTinyMap_fuel_enough (fuel : nat) :
  forall buf : Slice, len buf < fuel -> ParseTinyMap_fuel fuel buf <> OutOfFuel.
Proof.
  induction fuel as [|fuel IH]; intros buf Hlen; [lia|].
  cbn [ParseTinyMap_fuel]. repeat fuel_step.
  apply TinyMap_members_fuel; [|lia].
  intros sub Hsub. apply IH. lia.
Qed.

(** X8. [ParseTinyMap] always ends by itself: it returns or panics. *)
Lemma ParseTinyMap_total (buf : Slice) : ParseTinyMap buf <> OutOfFuel.
Proof. apply ParseTinyMap_fuel_enough. lia. Qed.

(** *** Whatever [Parse] returns covers the buffer *)

Lemma reslice_from_elems (s m : Slice) (lo : nat) :
  reslice_from s lo = Returned m -> elems m = drop lo (elems s).
Proof.
  unfold reslice_from. destruct (_ <=? _); [|done].
  destruct s; intros [= <-]; cbn [elems]; [by rewrite drop_nil | done].
Qed.

Lemma reslice_elems (s m : Slice) (lo hi : nat) :
  reslice s lo hi = Returned m -> hi <= len s ->
  elems m = take (hi - lo) (drop lo (elems s)).
Proof.
  unfold reslice. destruct (_ && _) eqn:E; [|done].
  apply andb_prop in E as [Hlo%Nat.leb_le _].
  destruct s as [|v sp]; intros [= <-] Hhi; unfold len in Hhi; cbn [elems] in *.
  - by rewrite drop_nil, take_nil.
  - unfold backing. cbn [elems spare].
    rewrite drop_app_le by lia. rewrite take_app_le; [done|].
    rewrite length_drop. lia.
Qed.

Lemma Parse_loop_concat (fuel : nat) :
  forall (buf : Slice) (i : nat) (msgs ms : list Message) (tail : Slice) (err : option error),
  i <= len buf ->
  Parse_loop fuel buf i msgs = Returned (ms, tail, err) ->
  concat (map (fun m => elems (Data m)) ms) ++ elems tail
  = concat (map (fun m => elems (Data m)) msgs) ++ drop i (elems buf).
Proof.
  induction fuel as [|fuel IH]; intros buf i msgs ms tail err Hle; [done|].
  cbn [Parse_loop]. destruct (i <? len buf) eqn:Ei.
  - unfold mbind, outcome_bind, bind.
    destruct (reslice buf i (i + 2)) as [hdr| | |]; try done.
    destruct (Uint16 hdr) as [n| | |]; try done.
    destruct (len buf <? _) eqn:En.
    + destruct (reslice_from buf i) as [chunk| | |] eqn:Ec; try done.
      intros [= <- <- _]. by rewrite (reslice_from_elems _ _ _ Ec).
    + destruct (reslice buf i (i + N.to_nat n + 4)) as [msg| | |] eqn:Em; try done.
      destruct (negb _); [done|].
      apply Nat.ltb_ge in En.
      pose proof (reslice_len _ _ _ _ Em) as Hlen.
      pose proof (reslice_elems _ _ _ _ Em ltac:(lia)) as Hel.
      intros H. apply IH in H; [|lia]. rewrite H.
      rewrite map_app, concat_app. cbn [map concat Data]. rewrite app_nil_r.
      rewrite <- app_assoc. f_equal.
      rewrite Hel, Hlen.
      rewrite <- (drop_drop (elems buf)). apply take_drop.
  - intros [= <- <- _]. apply Nat.ltb_ge in Ei. unfold len in *.
    cbn [elems]. by rewrite drop_ge by lia.
Qed.

(** X2. Whenever [Parse] returns, on any buffer, the messages' [Data]
    followed by the tail are the bytes of the buffer. *)
Lemma Parse_returned_concat (buf : Slice) (ms : list Message) (tail : Slice)
    (err : option error) :
  Parse buf = Returned (ms, tail, err) ->
  concat (map (fun m => elems (Data m)) ms) ++ elems tail = elems buf.
Proof.
  intros H. apply Parse_loop_concat in H; [|lia]. by rewrite H.
Qed.

(** *** Every message is a complete frame *)

Lemma reslice_backing (s m : Slice) (lo hi : nat) :
  reslice s lo hi = Returned m -> elems m = take (hi - lo) (drop lo (backing s)).
Proof.
  unfold reslice. destruct (_ && _); [|done].
  destruct s; intros [= <-]; [|done].
  unfold backing. cbn [elems spare app]. by rewrite drop_nil, take_nil.
Qed.

Lemma Parse_loop_complete (fuel : nat) :
  forall (buf : Slice) (i : nat) (msgs ms : list Message) (tail : Slice) (err : option error),
  Forall (fun m => complete_frame (elems (Data m)) = true /\ T m = IdentifyType (Data m)) msgs ->
  Parse_loop fuel buf i msgs = Returned (ms, tail, err) ->
  Forall (fun m => complete_frame (elems (Data m)) = true /\ T m = IdentifyType (Data m)) ms.
Proof.
  induction fuel as [|fuel IH]; intros buf i msgs ms tail err Hall; [done|].
  cbn [Parse_loop]. destruct (i <? len buf); [|by intros [= <- _ _]].
  unfold mbind, outcome_bind, bind.
  destruct (reslice buf i (i + 2)) as [hdr| | |] eqn:Eh; try done.
  destruct (Uint16 hdr) as [n| | |] eqn:En; try done.
  destruct (len buf <? _).
  - destruct (reslice_from buf i); try done. by intros [= <- _ _].
  - destruct (reslice buf i (i + N.to_nat n + 4)) as [msg| | |] eqn:Em; try done.
    destruct (HasSuffix (elems msg) [x00; x00]) eqn:Es; [|done]. cbn [negb].
    apply IH. apply Forall_app. split; [done|].
    constructor; [|constructor]. split; [|reflexivity]. cbn [Data].
    pose proof (reslice_len _ _ _ _ Em) as Hlen.
    apply reslice_backing in Eh, Em.
    unfold Uint16 in En. rewrite Eh in En.
    replace (i + 2 - i) with 2 in En by lia.
    replace (i + N.to_nat n + 4 - i) with (S (S (N.to_nat n + 2))) in Em by lia.
    destruct (drop i (backing buf)) as [|b0 [|b1 rest]]; try done.
    cbn in En. injection En as <-. cbn [take] in Em.
    unfold complete_frame, declared. rewrite Es. unfold len in Hlen.
    destruct (elems msg) as [|c0 [|c1 r]]; try discriminate.
    injection Em as -> -> _.
    rewrite andb_true_r. apply Nat.eqb_eq. lia.
Qed.

(** X3. Every message [Parse] returns holds a complete frame (its declared
    length plus four bytes, ending in [00 00]) and carries the type
    [IdentifyType] gives it. *)
Lemma Parse_messages_complete (buf : Slice) (ms : list Message) (tail : Slice)
    (err : option error) :
  Parse buf = Returned (ms, tail, err) ->
  Forall (fun m => complete_frame (elems (Data m)) = true /\ T m = IdentifyType (Data m)) ms.
Proof. by apply Parse_loop_complete. Qed.

(** *** A buffer that ends in half a length prefix *)

(** X5. After complete frames, one stray byte: [buf[i:i+2]] reaches past
    [len(buf)]. With spare capacity the byte behind it is read as the low
    half of the length, the frame counts as truncated and becomes the tail;
    without, the re-slice panics. *)
Lemma Parse_stray_byte (frames : list (list byte)) (b : byte) (sp : list byte) :
  Forall (fun f => complete_frame f = true) frames ->
  Parse (MkSlice (concat frames ++ [b]) sp)
  = match sp with
    | [] => Panicked bounds_error
    | _ :: _ => Returned (frames_messages frames ([b] ++ sp), MkSlice [b] sp, None)
    end.
Proof.
  intros Hall. destruct (Parse_frames frames [b] sp Hall) as [fuel ->].
  assert (Hlt : (length (concat frames) <? len (MkSlice (concat frames ++ [b]) sp)) = true).
  { apply Nat.ltb_lt. unfold len. cbn [elems]. rewrite length_app. simpl. lia. }
  cbn [Parse_loop]. rewrite Hlt.
  destruct sp as [|b1 sp].
  - rewrite reslice_beyond; [done|].
    unfold cap, backing. cbn [elems spare]. rewrite !length_app. simpl. lia.
  - rewrite (reslice_backing_window _ _ (concat frames) [b; b1] sp)
      by (by rewrite <- app_assoc).
    cbn [mbind outcome_bind bind Uint16 elems].
    replace (len (MkSlice (concat frames ++ [b]) (b1 :: sp))
             <? N.to_nat (uint16_of b b1) + length (concat frames) + 4) with true
      by (symmetry; apply Nat.ltb_lt; unfold len; cbn [elems];
          rewrite length_app; simpl; lia).
    unfold reslice_from, len. cbn [elems].
    replace (length (concat frames) <=? length (concat frames ++ [b])) with true
      by (symmetry; apply Nat.leb_le; rewrite length_app; lia).
    cbn [mbind outcome_bind bind]. by rewrite drop_app_length.
Qed.

Lemma Parse_returned_concat_witness :
  concat (map (fun m => elems (Data m)) (frames_messages [record_frame] cut_frame)) ++ cut_frame
  = record_frame ++ cut_frame.
Proof.
  refine (Parse_returned_concat (MkSlice (record_frame ++ cut_frame) [])
            (frames_messages [record_frame] cut_frame) (MkSlice cut_frame []) None _).
  vm_compute. reflexivity.
Defined.

Lemma Parse_messages_complete_witness :
  Forall (fun m => complete_frame (elems (Data m)) = true /\ T m = IdentifyType (Data m))
    (frames_messages [record_frame] cut_frame).
Proof.
  refine (Parse_messages_complete (MkSlice (record_frame ++ cut_frame) [])
            (frames_messages [record_frame] cut_frame) (MkSlice cut_frame []) None _).
  vm_compute. reflexivity.
Defined.

Lemma Parse_stray_byte_witness :
  Parse (MkSlice (record_frame ++ [x00]) []) = Panicked bounds_error /\
  Parse (MkSlice (record_frame ++ [x00]) [xff])
  = Returned (frames_messages [record_frame] [x00; xff], MkSlice [x00] [xff], None).
Proof.
  split.
  - apply (Parse_stray_byte [record_frame] x00 []). repeat constructor.
  - apply (Parse_stray_byte [record_frame] x00 [xff]). repeat constructor.
Defined.

(** X6. On an empty slice [Parse] returns no message, a nil tail and no
    error. *)
Lemma Parse_empty (sp : list byte) : Parse (MkSlice [] sp) = Returned ([], NilSlice, None).
Proof. reflexivity. Qed.

(** X7. [ParseTinyInt] at its boundary: [0x7f] is 127, [0x80] is an error. *)
Lemma ParseTinyInt_boundary :
  ParseTinyInt x7f = (127%Z, None) /\
  ParseTinyInt x80 = (0%Z, Some (errors_New "expected tiny-int!")).
Proof. split; reflexivity. Qed.

(** *** What [Parse] returns *)

(** C1. Parsing a well-formed byte stream (complete frames, then nothing or
    one truncated frame) returns without error, and the [Data] of the
    returned messages, concatenated in order and followed by the returned
    tail, is the stream again. *)
Theorem Parse_roundtrip (buf : Slice) :
  well_formed (elems buf) ->
  exists msgs tail,
    Parse buf = Returned (msgs, tail, None) /\
    concat (map (fun m => elems (Data m)) msgs) ++ elems tail = elems buf.
Proof.
  intros (frames & rest & E & Hall & Hrest).
  destruct buf as [|v sp].
  - exists [], NilSlice. split; reflexivity.
  - cbn [elems] in *. subst v.
    destruct (Parse_frames frames rest sp Hall) as [fuel ->].
    destruct Hrest as [-> | Htr].
    + exists (frames_messages frames ([] ++ sp)), NilSlice. split.
      * rewrite app_nil_r. apply Parse_loop_end.
      * by rewrite frames_messages_data.
    + exists (frames_messages frames (rest ++ sp)), (MkSlice rest sp). split.
      * by apply Parse_loop_truncated.
      * by rewrite frames_messages_data.
Qed.

Lemma Parse_roundtrip_witness :
  exists msgs tail,
    Parse (MkSlice (record_frame ++ record_frame ++ cut_frame) []) = Returned (msgs, tail, None) /\
    concat (map (fun m => elems (Data m)) msgs) ++ elems tail
    = record_frame ++ record_frame ++ cut_frame.
Proof.
  apply (Parse_roundtrip (MkSlice (record_frame ++ record_frame ++ cut_frame) [])).
  exists [record_frame; record_frame], cut_frame.
  split; [reflexivity|]. split; [repeat constructor | right; reflexivity].
Defined.

(** C4. When the buffer is complete frames followed by a truncated one (its
    declared length plus four exceeds the bytes that remain), [Parse]
    returns one message per complete frame, in order and typed by
    [IdentifyType], the truncated bytes as tail, and no error. *)
Theorem Parse_truncated_tail (buf : Slice) (frames : list (list byte)) (rest : list byte) :
  elems buf = concat frames ++ rest ->
  Forall (fun f => complete_frame f = true) frames ->
  truncated_frame rest = true ->
  exists msgs tail,
    Parse buf = Returned (msgs, tail, None) /\
    elems tail = rest /\
    map (fun m => elems (Data m)) msgs = frames /\
    Forall (fun m => T m = IdentifyType (Data m)) msgs.
Proof.
  intros E Hall Htr. destruct buf as [|v sp]; cbn [elems] in E.
  - destruct frames as [|f fs]; [|inversion Hall as [|? ? Hf%complete_frame_length _]; subst;
      apply (f_equal length) in E; simpl in E; rewrite !length_app in E; lia].
    simpl in E. subst rest. discriminate.
  - subst v. destruct (Parse_frames frames rest sp Hall) as [fuel ->].
    exists (frames_messages frames (rest ++ sp)), (MkSlice rest sp).
    split; [by apply Parse_loop_truncated|].
    split; [reflexivity|].
    split; [apply frames_messages_data | apply frames_messages_type].
Qed.

Lemma Parse_truncated_tail_witness :
  exists msgs tail,
    Parse (MkSlice (record_frame ++ cut_frame) [xff; xff]) = Returned (msgs, tail, None) /\
    elems tail = cut_frame /\
    map (fun m => elems (Data m)) msgs = [record_frame] /\
    Forall (fun m => T m = IdentifyType (Data m)) msgs.
Proof.
  apply (Parse_truncated_tail (MkSlice (record_frame ++ cut_frame) [xff; xff])
           [record_frame] cut_frame); [reflexivity | repeat constructor | reflexivity].
Defined.

(** C5, as the code has it. A frame that is present in full but does not end
    in [00 00] makes [Parse] panic: the error of the source's next line is
    never returned. *)
Theorem Parse_unterminated_panics (frames : list (list byte)) (f suf sp : list byte) :
  Forall (fun f => complete_frame f = true) frames ->
  unterminated_frame f = true ->
  Parse (MkSlice (concat frames ++ f ++ suf) sp) = Panicked bad_message.
Proof.
  intros Hall Hf. destruct (Parse_frames frames (f ++ suf) sp Hall) as [fuel ->].
  by apply Parse_loop_unterminated.
Qed.

Lemma Parse_unterminated_panics_witness :
  Parse (MkSlice (record_frame ++ unterminated ++ record_frame) []) = Panicked bad_message.
Proof.
  apply (Parse_unterminated_panics [record_frame] unterminated record_frame []);
    [repeat constructor | reflexivity].
Defined.
End BoltFacts.

(* ===================================================================== *)
(** ** Facts about package backend *)
(* ===================================================================== *)
Module BackendFacts.
Import Go Bolt Backend BackendSpec.

(** The refresh, run on the example cluster. *)
Lemma cluster_refresh :
  getNewRoutingTable map_to_list cluster 0 = Returned (Some cluster_table, None).
Proof. vm_compute. reflexivity. Qed.


(** *** The table built by [getNewRoutingTable] *)

Lemma elem_of_values_union (m : gmap string (list string)) (h : string) :
  h ∈ values_union m <-> exists db l, m !! db = Some l /\ h ∈ l.
Proof.
  unfold values_union. rewrite elem_of_union_list. split.
  - intros (X & HX & Hh). apply list_elem_of_fmap in HX as (l & -> & Hl).
    apply list_elem_of_fmap in Hl as ([db l'] & -> & Hl).
    apply elem_of_map_to_list in Hl. exists db, l'. split; [done|].
    by apply elem_of_list_to_set in Hh.
  - intros (db & l & Hl & Hh). exists (list_to_set l). split.
    + apply list_elem_of_fmap. exists l. split; [done|].
      apply list_elem_of_fmap. exists (db, l). split; [done|].
      by apply elem_of_map_to_list.
    + by apply elem_of_list_to_set.
Qed.

Lemma foldl_add_table_DefaultDb (kvs : list (string * table)) :
  forall rt, DefaultDb (foldl add_table rt kvs) = DefaultDb rt.
Proof.
  induction kvs as [|[k t] kvs IH]; intros rt; [done|].
  cbn [foldl]. by rewrite IH.
Qed.

Lemma foldl_add_table_readers (kvs : list (string * table)) :
  forall rt db, NoDup kvs.*1 ->
  readers (foldl add_table rt kvs) !! db
  = match (list_to_map kvs : gmap string table) !! db with
    | Some t => Some (t_readers t)
    | None => readers rt !! db
    end.
Proof.
  induction kvs as [|[k t] kvs IH]; intros rt db Hnd; [done|].
  rewrite fmap_cons in Hnd. apply NoDup_cons in Hnd as [Hk Hnd].
  cbn [foldl]. rewrite IH by done. rewrite list_to_map_cons.
  destruct (decide (k = db)) as [->|Hne].
  - rewrite lookup_insert_eq.
    rewrite (not_elem_of_list_to_map_1 _ _ Hk). cbn. by rewrite lookup_insert_eq.
  - rewrite lookup_insert_ne by done.
    destruct (_ !! db); [done|]. cbn. by rewrite lookup_insert_ne.
Qed.

Lemma foldl_add_table_writers (kvs : list (string * table)) :
  forall rt db, NoDup kvs.*1 ->
  writers (foldl add_table rt kvs) !! db
  = match (list_to_map kvs : gmap string table) !! db with
    | Some t => Some (t_writers t)
    | None => writers rt !! db
    end.
Proof.
  induction kvs as [|[k t] kvs IH]; intros rt db Hnd; [done|].
  rewrite fmap_cons in Hnd. apply NoDup_cons in Hnd as [Hk Hnd].
  cbn [foldl]. rewrite IH by done. rewrite list_to_map_cons.
  destruct (decide (k = db)) as [->|Hne].
  - rewrite lookup_insert_eq.
    rewrite (not_elem_of_list_to_map_1 _ _ Hk). cbn. by rewrite lookup_insert_eq.
  - rewrite lookup_insert_ne by done.
    destruct (_ !! db); [done|]. cbn. by rewrite lookup_insert_ne.
Qed.

Lemma foldl_add_table_Hosts (kvs : list (string * table)) :
  forall rt h,
  h ∈ Hosts (foldl add_table rt kvs) <->
  h ∈ Hosts rt \/ exists k t, (k, t) ∈ kvs /\ (h ∈ t_readers t \/ h ∈ t_writers t).
Proof.
  induction kvs as [|[k t] kvs IH]; intros rt h.
  - cbn. split; [auto|]. intros [H|(k & t & H & _)]; [done|]. by apply elem_of_nil in H.
  - cbn [foldl]. rewrite IH. cbn [add_table Hosts].
    rewrite !elem_of_union, !elem_of_list_to_set. split.
    + intros [[[H|H]|H]|(k' & t' & H & H')]; eauto.
      * right. exists k, t. split; [left|]; auto.
      * right. exists k, t. split; [left|]; auto.
      * right. exists k', t'. split; [by right|]; auto.
    + intros [H|(k' & t' & H & H')]; [auto|].
      apply elem_of_cons in H as [[= -> ->]|H]; [tauto|].
      right. eauto.
Qed.

(** The databases of the table map are those of the rows with role READ or
    WRITE, besides the ones it held before. *)
Lemma routingTable_rows_dom (rows : list Row) :
  forall (tableMap tableMap' : gmap string table) (db : string),
  routingTable_rows rows tableMap = Returned (tableMap', None) ->
  db ∈ dom tableMap' <-> db ∈ dom tableMap \/ exists row, row ∈ rows /\ serves db row.
Proof.
  induction rows as [|row rows IH]; intros tableMap tableMap' db.
  - cbn. intros [= <-]. split; [auto|]. intros [H|(row & H & _)]; [done|].
    by apply elem_of_nil in H.
  - cbn [routingTable_rows].
    destruct (Get row "address") as [[addr| |]|] eqn:Ea; try done.
    destruct (Get row "ttl") as [[|ttl|]|] eqn:Et; try done.
    destruct (Get row "name") as [[name| |]|] eqn:En; try done.
    destruct (Get row "role") as [[role| |]|] eqn:Er; try done.
    assert (Hhere : forall d, serves d row <-> d = name /\ (role = "READ" \/ role = "WRITE")).
    { intros d. unfold serves. rewrite En, Er. split.
      - intros [[= ->] [[= ->]|[= ->]]]; auto.
      - intros [-> [->| ->]]; auto. }
    assert (Hrows : forall d, (exists r, r ∈ row :: rows /\ serves d r) <->
                              serves d row \/ exists r, r ∈ rows /\ serves d r).
    { intros d. split.
      - intros (r & [->|Hr]%elem_of_cons & Hs); eauto.
      - intros [Hs|(r & Hr & Hs)]; [exists row | exists r];
          (split; [apply elem_of_cons; auto | done]). }
    rewrite Hrows, Hhere.
    repeat case_decide; subst; try done; intros Hrec; apply (IH _ _ db) in Hrec;
      rewrite Hrec, ?dom_insert, ?elem_of_union, ?elem_of_singleton; intuition congruence.
Qed.

Section Refresh.
Variable range_tables : gmap string table -> list (string * table).
Hypothesis range_tables_perm : forall m, range_tables m ≡ₚ map_to_list m.

Lemma range_tables_NoDup (m : gmap string table) : NoDup (range_tables m).*1.
Proof. rewrite range_tables_perm. apply NoDup_fst_map_to_list. Qed.

Lemma range_tables_map (m : gmap string table) : list_to_map (range_tables m) = m.
Proof.
  rewrite <- (list_to_map_to_list m) at 2.
  apply list_to_map_proper; [apply range_tables_NoDup | apply range_tables_perm].
Qed.

(** What a successful refresh returns, in terms of the table map the rows
    gave. *)
Lemma getNewRoutingTable_inv (driver : Driver) (now : Z) (rt : RoutingTable) :
  getNewRoutingTable range_tables driver now = Returned (Some rt, None) ->
  exists names tableMap,
    queryDbNames driver = Returned (names, None) /\
    queryRoutingTable driver names = Returned (tableMap, None) /\
    head names = Some (DefaultDb rt) /\
    (forall db, readers rt !! db = t_readers <$> tableMap !! db) /\
    (forall db, writers rt !! db = t_writers <$> tableMap !! db) /\
    (forall h, h ∈ Hosts rt <->
               exists db t, tableMap !! db = Some t /\ (h ∈ t_readers t \/ h ∈ t_writers t)).
Proof.
  unfold getNewRoutingTable, mbind, outcome_bind, bind.
  destruct (queryDbNames driver) as [[names [err|]]| | |]; try done.
  destruct (queryRoutingTable driver names) as [[tableMap [err|]]| | |] eqn:Et; try done.
  destruct names as [|name0 names]; [done|].
  intros [= <-]. exists (name0 :: names), tableMap.
  repeat split; try done.
  - by rewrite foldl_add_table_DefaultDb.
  - intros db. rewrite foldl_add_table_readers by apply range_tables_NoDup.
    rewrite range_tables_map. by destruct (tableMap !! db).
  - intros db. rewrite foldl_add_table_writers by apply range_tables_NoDup.
    rewrite range_tables_map. by destruct (tableMap !! db).
  - intros H. apply foldl_add_table_Hosts in H as [H|(k & t & H & H')]; [done|].
    exists k, t. split; [|done].
    rewrite range_tables_perm in H. by apply elem_of_map_to_list in H.
  - intros (k & t & H & H'). apply foldl_add_table_Hosts. right.
    exists k, t. split; [|done].
    rewrite range_tables_perm. by apply elem_of_map_to_list.
Qed.

(** C3. In a table built by the refresh, [Hosts] is the union of the hosts
    of every reader list and every writer list; in particular it holds
    every host of any of these lists. *)
Theorem Hosts_union (driver : Driver) (now : Z) (rt : RoutingTable) :
  getNewRoutingTable range_tables driver now = Returned (Some rt, None) ->
  Hosts rt = values_union (readers rt) ∪ values_union (writers rt) /\
  forall db l h, readers rt !! db = Some l \/ writers rt !! db = Some l ->
                 h ∈ l -> h ∈ Hosts rt.
Proof.
  intros (names & tableMap & _ & _ & _ & Hr & Hw & Hh)%getNewRoutingTable_inv.
  assert (Heq : Hosts rt = values_union (readers rt) ∪ values_union (writers rt)).
  { apply set_eq. intros h. rewrite Hh, elem_of_union, !elem_of_values_union. split.
    - intros (db & t & Ht & [H|H]); [left|right].
      + exists db, (t_readers t). by rewrite Hr, Ht.
      + exists db, (t_writers t). by rewrite Hw, Ht.
    - intros [(db & l & Hl & H)|(db & l & Hl & H)].
      + rewrite Hr in Hl. destruct (tableMap !! db) as [t|] eqn:Ht; [|done].
        injection Hl as <-. eauto.
      + rewrite Hw in Hl. destruct (tableMap !! db) as [t|] eqn:Ht; [|done].
        injection Hl as <-. eauto. }
  split; [done|].
  intros db l h Hl Hin. rewrite Heq, elem_of_union, !elem_of_values_union.
  destruct Hl as [Hl|Hl]; [left|right]; eauto.
Qed.

(** C6, as the code has it. In a table built by the refresh the readers and
    the writers mapping have the same keys, and the default database is one
    of them exactly when the routing query returned a READ or WRITE row for
    it. *)
Theorem DefaultDb_key_iff (driver : Driver) (now : Z) (rt : RoutingTable) :
  getNewRoutingTable range_tables driver now = Returned (Some rt, None) ->
  dom (readers rt) = dom (writers rt) /\
  exists names rows,
    queryDbNames driver = Returned (names, None) /\
    routing_query driver names = Rows rows /\
    (DefaultDb rt ∈ dom (readers rt) <-> exists row, row ∈ rows /\ serves (DefaultDb rt) row).
Proof.
  intros (names & tableMap & Hn & Ht & _ & Hr & Hw & _)%getNewRoutingTable_inv.
  assert (Hdr : dom (readers rt) = dom tableMap).
  { apply set_eq. intros db. rewrite !elem_of_dom, Hr. by rewrite fmap_is_Some. }
  assert (Hdw : dom (writers rt) = dom tableMap).
  { apply set_eq. intros db. rewrite !elem_of_dom, Hw. by rewrite fmap_is_Some. }
  split; [congruence|].
  unfold queryRoutingTable, routingTableTx, mbind, outcome_bind, bind in Ht.
  destruct (routing_query driver names) as [rows|err] eqn:Eq; [|done].
  exists names, rows. repeat split; try done.
  - rewrite Hdr. destruct (routingTable_rows rows ∅) as [[tm [err|]]| | |] eqn:Erows; try done.
    injection Ht as ->. rewrite (routingTable_rows_dom _ _ _ _ Erows).
    rewrite dom_empty. intros [H|H]; [by apply not_elem_of_empty in H | done].
  - rewrite Hdr. destruct (routingTable_rows rows ∅) as [[tm [err|]]| | |] eqn:Erows; try done.
    injection Ht as ->. rewrite (routingTable_rows_dom _ _ _ _ Erows). auto.
Qed.

End Refresh.

Lemma Hosts_union_witness :
  Hosts cluster_table
  = values_union (readers cluster_table) ∪ values_union (writers cluster_table) /\
  forall db l h, readers cluster_table !! db = Some l \/ writers cluster_table !! db = Some l ->
                 h ∈ l -> h ∈ Hosts cluster_table.
Proof.
  apply (Hosts_union map_to_list (fun m => reflexivity (map_to_list m)) cluster 0 cluster_table).
  vm_compute. reflexivity.
Defined.


Lemma DefaultDb_key_iff_witness :
  dom (readers cluster_table) = dom (writers cluster_table) /\
  exists names rows,
    queryDbNames cluster = Returned (names, None) /\
    routing_query cluster names = Rows rows /\
    (DefaultDb cluster_table ∈ dom (readers cluster_table) <->
     exists row, row ∈ rows /\ serves (DefaultDb cluster_table) row).
Proof.
  apply (DefaultDb_key_iff map_to_list (fun m => reflexivity (map_to_list m))
           cluster 0 cluster_table).
  vm_compute. reflexivity.
Defined.

(** C6 fails where the routing query names only routers for the default
    database: the refresh returns a table whose default database is a key
    of neither mapping. *)
Lemma DefaultDb_key_counterexample :
  exists rt,
    getNewRoutingTable map_to_list routers_only 0 = Returned (Some rt, None) /\
    ~ (DefaultDb rt ∈ dom (readers rt) /\ DefaultDb rt ∈ dom (writers rt)).
Proof.
  eexists. split; [vm_compute; reflexivity|].
  cbn [DefaultDb readers]. intros [H _]. by apply not_elem_of_empty in H.
Qed.


(** *** The monitor's goroutine *)

Section Goroutine.
Variable range_tables : gmap string table -> list (string * table).

(** No trip of the loop leaves the goroutine's function by a return. *)
Lemma step_never_returns (st : MonitorState) (ev : Event) :
  step range_tables st ev <> Returns.
Proof.
  destruct ev; cbn [step]; try done.
  destruct (getNewRoutingTable _ _ _) as [[[rt|] [err|]]| | |]; try done.
  by destruct (_ <=? _)%Z.
Qed.

(** X9. Along any sequence of events the goroutine never returns: it waits
    in its [select], or the process exits or panics. *)
Lemma run_never_returns (evs : list Event) :
  forall l l', l <> Returns -> run range_tables l evs = Some l' -> l' <> Returns.
Proof.
  induction evs as [|ev evs IH]; intros l l' Hl; cbn [run].
  - by intros [= <-].
  - destruct l as [st| |]; try done. destruct (enabled st ev); [|done].
    apply IH, step_never_returns.
Qed.

(** C9, as the code has it. [Monitor.Stop] is called and the goroutine
    receives the halt signal: it does not return but waits in its [select]
    again, with the ticker stopped and the halt channel empty, so that of
    the three cases only the watchdog can still fire; and when it does, the
    process exits. *)
Theorem halt_then_watchdog_exits (st : MonitorState) :
  exists st',
    run range_tables (Waiting st) [CallStop; Halt] = Some (Waiting st') /\
    (forall driver now, enabled st' (Tick driver now) = false) /\
    enabled st' Halt = false /\
    enabled st' Watchdog = true /\
    run range_tables (Waiting st') [Watchdog]
    = Some (Dies (Exited "monitor timeout reached of 5 x %v")).
Proof.
  exists {| rt0 := rt0 st; ticker_period := ticker_period st; ticker_running := false;
            C := C st; halt := None |}.
  split.
  - cbn [run enabled step halt]. destruct (halt st); reflexivity.
  - repeat split; reflexivity.
Qed.

End Goroutine.

Lemma run_never_returns_witness :
  Dies (Exited "monitor timeout reached of 5 x %v") <> Returns.
Proof.
  refine (run_never_returns map_to_list [CallStop; Halt; Watchdog]
            (monitor_start cluster_table) _ _ _).
  - vm_compute. discriminate.
  - vm_compute. reflexivity.
Defined.

(** *** Authentication *)

Section Auth.
Variable NetConn : Type.
Variable authClient : Slice -> string -> string -> bool -> NetConn + error.
Variable range_hosts : gset string -> list string.
Variable reads : list (nat * nat).
Variable arrival : list (BoltConn NetConn * string) -> list (BoltConn NetConn * string).

Abbreviation Authenticate := (Authenticate NetConn authClient range_hosts reads arrival).
Abbreviation fan_out := (fan_out NetConn authClient).

Lemma net_bind_run {A B : Type} (m : Net A) (k : A -> Net B) (log log' : list string) (a : A) :
  m log = (log', Returned a) -> (x ← m; k x) log = k a log'.
Proof. intros H. unfold mbind, Net_bind, net_bind. by rewrite H. Qed.

(** The loop always returns and only adds to the log, whatever its
    goroutines find in [host]. *)
Lemma fan_out_run (hello : Message) (tls : bool) (defaultWriter : string)
    (hosts : list string) :
  forall (rs : list (nat * nat)) (log : list string),
  exists dialled pairs,
    fan_out hello tls defaultWriter hosts rs log = (log ++ dialled, Returned pairs).
Proof.
  induction hosts as [|host hosts IH]; intros rs log.
  - exists [], []. by rewrite app_nil_r.
  - cbn [Backend.fan_out]. destruct (decide (host = defaultWriter)) as [_|_]; [apply IH|].
    destruct (hd (0, 0) rs) as [d d'].
    rewrite (net_bind_run _ _ log (log ++ [seen host hosts d])
               (authClient (Data hello) "tcp" (seen host hosts d) tls)) by reflexivity.
    destruct (IH (tl rs) (log ++ [seen host hosts d])) as (dialled & pairs & Hp).
    rewrite (net_bind_run _ _ _ _ _ Hp).
    rewrite <- app_assoc. cbn [app].
    destruct (authClient _ _ _ _); eexists _, _; reflexivity.
Qed.

Lemma collect_keeps (pairs : list (BoltConn NetConn * string)) :
  forall (conns : gmap string (BoltConn NetConn)) (host : string),
  is_Some (conns !! host) -> is_Some (collect NetConn conns pairs !! host).
Proof.
  induction pairs as [|[c h] pairs IH]; intros conns host Hin; [done|].
  cbn [collect foldl]. apply IH. cbn.
  destruct (decide (h = host)) as [->|Hne].
  - rewrite lookup_insert_eq. eauto.
  - by rewrite lookup_insert_ne.
Qed.

(** [Authenticate] up to its first call of [authClient], for a HELLO with a
    principal and a table with a default writer. *)
Lemma Authenticate_unfold (b b' : Backend) (now : Z) (arriving : option RoutingTable)
    (hello : Message) (msg : gmap string value) (pos : nat) (principal : string)
    (rt : RoutingTable) (defaultWriter : string) (writers : list string)
    (e : option error) (log : list string) :
  T hello = HelloMsg ->
  (payload ← reslice_from (Data hello) 4; ParseTinyMap payload) = Returned (msg, pos, None) ->
  msg !! "principal" = Some (VString principal) ->
  Backend_RoutingTable b now arriving = Returned (b', rt) ->
  WritersFor rt (DefaultDb rt) = (defaultWriter :: writers, e) ->
  Authenticate b now arriving hello log
  = match authClient (Data hello) "tcp" defaultWriter (tls b) with
    | inr err => (log ++ [defaultWriter], Returned (∅, Some err))
    | inl conn =>
        (pairs ← fan_out hello (tls b) defaultWriter (range_hosts (Hosts rt)) reads;
         mret (collect NetConn {[ defaultWriter := NewDirectConn NetConn conn ]} (arrival pairs),
               None))
          (log ++ [defaultWriter])
    end.
Proof.
  intros HT Hmap Hp Hrt Hw. unfold Backend.Authenticate.
  rewrite HT. rewrite bool_decide_true by done. cbn [negb].
  rewrite Hmap. unfold mbind, Net_bind, net_bind, lift. cbn beta iota.
  rewrite Hp, Hrt. cbn beta iota. cbn [snd]. rewrite Hw. unfold dial.
  by destruct (authClient _ _ _ _).
Qed.

(** C2. For a HELLO whose payload decodes to a map with a string principal
    and a routing table whose default database has a first writer, the first
    host [authClient] is called for is that writer, and when that call fails
    [Authenticate] returns its error at once: no other host is tried. *)
Theorem Authenticate_probe_first (b b' : Backend) (now : Z) (arriving : option RoutingTable)
    (hello : Message) (msg : gmap string value) (pos : nat) (principal : string)
    (rt : RoutingTable) (defaultWriter : string) (writers : list string)
    (e : option error) :
  T hello = HelloMsg ->
  (payload ← reslice_from (Data hello) 4; ParseTinyMap payload) = Returned (msg, pos, None) ->
  msg !! "principal" = Some (VString principal) ->
  Backend_RoutingTable b now arriving = Returned (b', rt) ->
  WritersFor rt (DefaultDb rt) = (defaultWriter :: writers, e) ->
  match authClient (Data hello) "tcp" defaultWriter (tls b) with
  | inr err => Authenticate b now arriving hello [] = ([defaultWriter], Returned (∅, Some err))
  | inl conn =>
      exists rest conns,
        Authenticate b now arriving hello [] = (defaultWriter :: rest, Returned (conns, None))
  end.
Proof.
  intros HT Hmap Hp Hrt Hw.
  rewrite (Authenticate_unfold b b' now arriving hello msg pos principal rt
             defaultWriter writers e [] HT Hmap Hp Hrt Hw).
  destruct (authClient _ _ _ _) as [conn|err]; [|done].
  destruct (fan_out_run hello (tls b) defaultWriter (range_hosts (Hosts rt)) reads
              ([] ++ [defaultWriter])) as (dialled & pairs & Hpairs).
  rewrite (net_bind_run _ _ _ _ _ Hpairs). eexists _, _. reflexivity.
Qed.

(** C10. When [Authenticate] returns without an error, the first writer of
    the default database is a key of the returned map, which is therefore
    not empty: whichever hosts the goroutines of the loop find in [host],
    dial and send, and in whatever order their pairs arrive. *)
Theorem Authenticate_keeps_default_writer (b : Backend) (now : Z)
    (arriving : option RoutingTable) (hello : Message) (log log' : list string)
    (conns : gmap string (BoltConn NetConn)) :
  Authenticate b now arriving hello log = (log', Returned (conns, None)) ->
  exists b' rt defaultWriter,
    Backend_RoutingTable b now arriving = Returned (b', rt) /\
    head (WritersFor rt (DefaultDb rt)).1 = Some defaultWriter /\
    is_Some (conns !! defaultWriter) /\
    conns <> ∅.
Proof.
  unfold Backend.Authenticate.
  destruct (negb _); [done|].
  unfold mbind at 1, Net_bind, net_bind, lift. cbn beta iota.
  destruct (_ ← _; _) as [[[msg pos] [err|]]| | |]; try done.
  destruct (msg !! "principal") as [[| |p| |]|]; try done.
  unfold mbind at 1, Net_bind, net_bind. cbn beta iota.
  destruct (Backend_RoutingTable b now arriving) as [[b' rt]| | |]; try done.
  cbn [snd].
  destruct (WritersFor rt (DefaultDb rt)) as [[|w ws] e] eqn:Ew; [done|].
  unfold mbind at 1, Net_bind, net_bind, dial. cbn beta iota.
  destruct (authClient _ _ _ _) as [conn|err]; [|done].
  destruct (fan_out_run hello (tls b) w (range_hosts (Hosts rt)) reads (log ++ [w]))
    as (dialled & pairs & Hpairs).
  rewrite (net_bind_run _ _ _ _ _ Hpairs).
  intros Heq. injection Heq as _ <-.
  assert (Hk : is_Some (collect NetConn {[w := NewDirectConn NetConn conn]} (arrival pairs) !! w)).
  { apply collect_keeps. rewrite lookup_singleton_eq. eauto. }
  exists b', rt, w. split; [done|]. split; [by rewrite Ew|]. split; [done|].
  intros Hempty. rewrite Hempty, lookup_empty in Hk. by destruct Hk.
Qed.


End Auth.

Lemma Authenticate_probe_first_witness :
  Authenticate unit (refusing ["core1:7687"]) elements [] id cluster_backend 0 None hello []
  = (["core1:7687"], Returned (∅, Some (net_error "authentication failed"))).
Proof.
  refine (Authenticate_probe_first unit (refusing ["core1:7687"]) elements [] id
            cluster_backend cluster_backend 0 None hello _ _ "neo4j"
            cluster_table "core1:7687" [] None _ _ _ _ _).
  - reflexivity.
  - vm_compute. reflexivity.
  - vm_compute. reflexivity.
  - reflexivity.
  - reflexivity.
Defined.

Lemma Authenticate_keeps_default_writer_witness :
  exists b' rt defaultWriter,
    Backend_RoutingTable cluster_backend 0 None = Returned (b', rt) /\
    head (WritersFor rt (DefaultDb rt)).1 = Some defaultWriter /\
    is_Some (probe_conns !! defaultWriter) /\
    probe_conns <> ∅.
Proof.
  refine (Authenticate_keeps_default_writer unit (refusing ["core3:7687"]) walk_back
            after_loop id cluster_backend 0 None hello []
            ["core1:7687"; "core3:7687"; "core3:7687"] probe_conns _).
  vm_compute. reflexivity.
Defined.



End BackendFacts.
